(** * Express-Web-Radio: the playback / broadcast engine

    A shallow embedding of [player.js] (class [Player]) and [index.js]
    (class [WebRadio]), and the properties of the engine stated in the
    specification.

    Layout:
    - [JS]: the fragment of JavaScript values the two classes compute
      with (truthiness, property access, [parseInt], insertion-ordered
      [Map]);
    - [Node]: the Node.js objects the engine holds ([Dirent],
      [path.extname], [PassThrough], [fs.ReadStream]);
    - the world the engine runs in, and a state-and-exception monad;
    - [Player] and [WebRadio]: the methods, one definition per method;
    - the event loop: the callbacks the environment fires;
    - the notions the statements use and a worked scenario;
    - the properties.

    What is outside the two classes is modelled by its documented
    behaviour:
    - the file system and [Math.random] are read from an [Env];
    - [ffprobe] settles with a [ProbeOutcome] chosen by the environment;
    - the Pacer ([Throttle]) fires the ["data"] callback once per chunk
      and then the ["end"] callback; destroying the byte source stops it;
    - [write] on a [PassThrough] that has been destroyed delivers
      nothing; on one that has been ended it destroys the stream; it
      never throws;
    - an [fs.ReadStream] records the [destroy()] calls the engine makes
      on it, not the closing it does by itself once the file is read;
    - numbers are the integer-valued doubles and the special values, and
      a string is its sequence of code units, those below 256. *)

From Stdlib Require Import ZArith NArith Lia Ascii String DecimalString DecimalPos.
From stdpp Require Import base option list strings.

Set Warnings "-register-all".

Local Open Scope Z_scope.

(* ===================================================================== *)
(** ** JavaScript values *)
(* ===================================================================== *)

Module JS.

(** Numbers.  The engine only ever produces integer-valued numbers
    ([parseInt] results and the literal [128000]) and inspects the
    configured [bitrate] for truthiness; [Int z] stands for the
    integer-valued double [z] ([Int 0] is [+0]), and the remaining
    constructors are the special values.  Fractional doubles are not
    represented.  Every integer up to [2^53] in absolute value is a
    double; beyond, only some are, and [Int z] is a number of the
    program only for those. *)
Inductive number :=
| NaN
| PosInfinity
| NegInfinity
| NegZero
| Int (z : Z).

Inductive value :=
| VUndefined
| VNull
| VBool (b : bool)
| VNum (n : number)
| VStr (s : string)
| VFun
| VArr (items : list value)
| VObj (fields : list (string * value)).

(** What a [throw] carries.  The [Error] objects of [index.js] are told
    apart by their message; [TypeError] is what the runtime raises on a
    property access or call on [null] / [undefined]. *)
Inductive error :=
| AlreadyPlaying          (* "Radio is already playing. ..." *)
| NotPlaying              (* "Radio is not playing." *)
| DirectoryNotString      (* "Audio directory '...' is not a string." *)
| DirectoryMissing        (* "Audio directory '...' does not exist." *)
| BitrateNotNumber        (* "Bitrate option '...' is not a number." *)
| LoopNotBoolean          (* "Loop option '...' is not a boolean." *)
| ShuffleNotBoolean       (* "Shuffle option '...' is not a boolean." *)
| LogFnNotFunction        (* "Log function '...' is not a function." *)
| NoMp3Files              (* "Audio directory '...' contains no MP3 files." *)
| TypeError
| ReaddirError            (* fs.readdirSync failed (ENOENT, ENOTDIR, EACCES) *)
| ProbeError.             (* the promise returned by ffprobe rejected *)

(** The outcome of evaluating an expression or running a statement list:
    a normal completion or a [throw]. *)
Inductive completion (A : Type) :=
| Normal (a : A)
| Throw (e : error).
Arguments Normal {A} a.
Arguments Throw {A} e.

(** [ToBoolean]. *)
Definition truthy (v : value) : bool :=
  match v with
  | VUndefined | VNull => false
  | VBool b => b
  | VNum NaN | VNum NegZero | VNum (Int 0) => false
  | VNum _ => true
  | VStr s => negb (String.eqb s "")
  | VFun | VArr _ | VObj _ => true
  end.

(** [typeof v]. *)
Inductive type_tag :=
| TUndefined | TObject | TBoolean | TNumber | TString | TFunction.

Definition typeof (v : value) : type_tag :=
  match v with
  | VUndefined => TUndefined
  | VNull | VArr _ | VObj _ => TObject
  | VBool _ => TBoolean
  | VNum _ => TNumber
  | VStr _ => TString
  | VFun => TFunction
  end.

Definition type_tag_eqb (a b : type_tag) : bool :=
  match a, b with
  | TUndefined, TUndefined | TObject, TObject | TBoolean, TBoolean
  | TNumber, TNumber | TString, TString | TFunction, TFunction => true
  | _, _ => false
  end.

(** Lookup of an own property in an object literal (first binding). *)
Fixpoint assoc (k : string) (fs : list (string * value)) : option value :=
  match fs with
  | [] => None
  | (k', v) :: fs' => if String.eqb k k' then Some v else assoc k fs'
  end.

(** [v.name] for a name that is not a built-in property ([streams],
    [bit_rate]): a [TypeError] on [undefined] and [null], the own
    property of an object, [undefined] everywhere else. *)
Definition get_prop (v : value) (name : string) : completion value :=
  match v with
  | VUndefined | VNull => Throw TypeError
  | VObj fs => Normal (default VUndefined (assoc name fs))
  | _ => Normal VUndefined
  end.

(** [v[0]]: the first element of an array, the first character of a
    string, the own property ["0"] of an object. *)
Definition get_index0 (v : value) : completion value :=
  match v with
  | VUndefined | VNull => Throw TypeError
  | VArr items => Normal (default VUndefined (head items))
  | VStr (String c _) => Normal (VStr (String c ""))
  | VObj fs => Normal (default VUndefined (assoc "0" fs))
  | _ => Normal VUndefined
  end.

(** *** [ToString] *)

Definition digits_of_Z (z : Z) : string :=
  NilZero.string_of_int (Z.to_int z).

(** [Number::toString] of a non-negative integer: plain decimal digits
    below [10^21], exponent notation from there on.  Only the digits in
    front of the decimal point matter to [parseInt]; they are the leading
    digit of the number. *)
Definition leading_digit (s : string) : string :=
  match s with
  | String c _ => String c ""
  | EmptyString => ""
  end.

Definition string_of_nonneg (z : Z) : string :=
  let ds := digits_of_Z z in
  if z <? 10 ^ 21 then ds
  else leading_digit ds +:+ "e+" +:+ digits_of_Z (Z.of_nat (String.length ds) - 1).

Definition string_of_number (n : number) : string :=
  match n with
  | NaN => "NaN"
  | PosInfinity => "Infinity"
  | NegInfinity => "-Infinity"
  | NegZero => "0"
  | Int z => if z <? 0 then "-" +:+ string_of_nonneg (- z) else string_of_nonneg z
  end.

Definition join_comma (ss : list string) : string :=
  match ss with
  | [] => ""
  | s :: ss' => fold_left (fun acc t => acc +:+ "," +:+ t) ss' s
  end.

Fixpoint to_string (v : value) : string :=
  match v with
  | VUndefined => "undefined"
  | VNull => "null"
  | VBool true => "true"
  | VBool false => "false"
  | VNum n => string_of_number n
  | VStr s => s
  | VFun => "function () { [native code] }"
  | VArr items =>
      join_comma
        (map (fun x => match x with
                       | VUndefined | VNull => ""
                       | _ => to_string x
                       end) items)
  | VObj _ => "[object Object]"
  end.

(** *** [parseInt(v)] with no radix argument *)

(** The white space [parseInt] skips, among the code units below 256:
    TAB, LF, VT, FF, CR, SP and NBSP. *)
Definition is_whitespace (c : ascii) : bool :=
  let n := Ascii.nat_of_ascii c in
  ((9 <=? n) && (n <=? 13))%nat || (n =? 32)%nat || (n =? 160)%nat.

Fixpoint trim_start (cs : list ascii) : list ascii :=
  match cs with
  | c :: cs' => if is_whitespace c then trim_start cs' else cs
  | [] => []
  end.

Definition digit_value (radix : Z) (c : ascii) : option Z :=
  let n := Z.of_nat (Ascii.nat_of_ascii c) in
  let d :=
    if (48 <=? n) && (n <=? 57) then Some (n - 48)
    else if (97 <=? n) && (n <=? 122) then Some (n - 97 + 10)
    else if (65 <=? n) && (n <=? 90) then Some (n - 65 + 10)
    else None in
  match d with
  | Some k => if k <? radix then Some k else None
  | None => None
  end.

(** The longest prefix of radix-[radix] digits, as the mathematical
    integer it denotes; [None] when the prefix is empty. *)
Fixpoint parse_digits (radix : Z) (cs : list ascii) (acc : option Z) : option Z :=
  match cs with
  | c :: cs' =>
      match digit_value radix c with
      | Some k => parse_digits radix cs' (Some (radix * default 0 acc + k))
      | None => acc
      end
  | [] => acc
  end.

Definition ascii_eqb (a b : ascii) : bool := Ascii.eqb a b.

(** An optional sign. *)
Definition strip_sign (s : list ascii) : bool * list ascii :=
  match s with
  | c :: s' =>
      if ascii_eqb c "-" then (true, s')
      else if ascii_eqb c "+" then (false, s')
      else (false, s)
  | [] => (false, s)
  end.

(** An optional [0x] / [0X], which selects radix 16. *)
Definition strip_prefix (s : list ascii) : Z * list ascii :=
  match s with
  | z :: x :: s' =>
      if ascii_eqb z "0" && (ascii_eqb x "x" || ascii_eqb x "X")
      then (16, s') else (10, s)
  | _ => (10, s)
  end.

(** The digits are read as the integer they denote.  JavaScript then
    takes the nearest double, which is that integer whenever the
    integer is a double, as every integer up to [2^53] is; the rounding
    of the other integers is not modelled. *)
Definition parseInt_chars (cs : list ascii) : number :=
  let '(negative, s) := strip_sign (trim_start cs) in
  let '(radix, s) := strip_prefix s in
  match parse_digits radix s None with
  | None => NaN
  | Some 0 => if negative then NegZero else Int 0
  | Some m => Int (if negative then - m else m)
  end.

Definition parseInt (v : value) : number :=
  parseInt_chars (String.list_ascii_of_string (to_string v)).

(** *** [Map], in insertion order *)

Abbreviation Map V := (list (string * V)) (only parsing).

Section Map.
Context {V : Type}.

Fixpoint Map_get (k : string) (m : Map V) : option V :=
  match m with
  | [] => None
  | (k', v) :: m' => if String.eqb k k' then Some v else Map_get k m'
  end.

(** [m.set(k, v)]: an existing key keeps its position. *)
Fixpoint Map_set (k : string) (v : V) (m : Map V) : Map V :=
  match m with
  | [] => [(k, v)]
  | (k', v') :: m' =>
      if String.eqb k k' then (k', v) :: m' else (k', v') :: Map_set k v m'
  end.

Definition Map_delete (k : string) (m : Map V) : Map V :=
  List.filter (fun kv => negb (String.eqb k (fst kv))) m.

Definition Map_values (m : Map V) : list V := map snd m.
Definition Map_keys (m : Map V) : list string := map fst m.
Definition Map_clear (m : Map V) : Map V := [].
End Map.

End JS.

(* ===================================================================== *)
(** ** Node.js objects *)
(* ===================================================================== *)

Module Node.

(** A [Buffer] of file bytes: one chunk as the Pacer emits it. *)
Abbreviation Buffer := (list Byte.byte) (only parsing).

(** [fs.Dirent], as [readdirSync(dir, { withFileTypes: true })] returns
    them. *)
Inductive entry_kind := RegularFile | Directory | OtherEntry.

Record Dirent := mkDirent {
  name : string;
  kind : entry_kind
}.

(** The method [dirent.isFile()]. *)
Definition isFile (d : Dirent) : bool :=
  match kind d with
  | RegularFile => true
  | _ => false
  end.

(** The property read [dirent.isFile] (no call): the method itself, a
    function object. *)
Definition isFile_property (d : Dirent) : JS.value := JS.VFun.

(** [path.extname] on one path segment (a directory entry's name holds no
    separator): from the last ['.'] to the end; empty when there is no
    ['.'], when the only ['.'] is the first character, and for [".."]. *)
Fixpoint last_dot (cs : list ascii) (i : nat) (found : option nat) : option nat :=
  match cs with
  | [] => found
  | c :: cs' =>
      last_dot cs' (S i) (if Ascii.eqb c "." then Some i else found)
  end.

Definition extname (p : string) : string :=
  match last_dot (String.list_ascii_of_string p) 0 None with
  | None => ""
  | Some O => ""
  | Some d =>
      if String.eqb p ".." then ""
      else String.substring d (String.length p - d) p
  end.

(** [path.join(process.cwd(), dir, file)]: kept relative to the working
    directory and not normalised; the result only names a file to
    [fs.createReadStream] and [ffprobe]. *)
Definition path_join (dir file : string) : string :=
  dir +:+ "/" +:+ file.

(** A [stream.PassThrough]: what has been written to it and flowed on to
    its consumer, whether [end()] has been called, whether it has been
    destroyed. *)
Record PassThrough := mkPassThrough {
  received : list Buffer;
  ended : bool;
  destroyed : bool
}.

Definition new_PassThrough : PassThrough :=
  {| received := []; ended := false; destroyed := false |}.

(** The stream refuses the chunk of a [write]. *)
Definition write_fails (s : PassThrough) : bool :=
  ended s || destroyed s.

Definition end_ (s : PassThrough) : PassThrough :=
  {| received := received s; ended := true; destroyed := destroyed s |}.

Definition destroy (s : PassThrough) : PassThrough :=
  {| received := received s; ended := ended s; destroyed := true |}.

(** [s.write(chunk)] with no callback.  It never throws.
    - On a destroyed stream the chunk is dropped; the error
      ([ERR_STREAM_DESTROYED]) goes to the callback only.
    - On a stream that has been ended the chunk is dropped and the
      stream is destroyed with [ERR_STREAM_WRITE_AFTER_END], which it
      emits as an ['error'] event.  [index.js] attaches no listener for
      it; what the host does with the uncaught error is not followed,
      the engine making no such write: a sink it has ended is out of the
      registry before the next chunk is broadcast (see
      [run_keeps_registry_live]).
    - Otherwise the chunk flows on to the consumer. *)
Definition write (chunk : Buffer) (s : PassThrough) : PassThrough :=
  if destroyed s then s
  else if ended s then destroy s
  else {| received := received s ++ [chunk];
          ended := ended s; destroyed := destroyed s |}.

(** An [fs.ReadStream] opened by [fs.createReadStream(path)]:
    [rs_destroyed] records that the engine has called [destroy()] on it.
    The stream also closes by itself once the file has been read
    ([autoClose]), before the Pacer signals the end of the track; that
    is not recorded, the engine never reading the stream's state, and a
    [destroy()] on a closed stream does nothing more. *)
Record ReadStream := mkReadStream {
  path : string;
  rs_destroyed : bool
}.

Definition rs_destroy (s : ReadStream) : ReadStream :=
  {| path := path s; rs_destroyed := true |}.

(** The result of [ffprobe(song)]: the promise resolves with a value or
    rejects. *)
Inductive ProbeOutcome :=
| Resolved (v : JS.value)
| Rejected.

End Node.

Import JS Node.

(* ===================================================================== *)
(** ** The world the engine runs in *)
(* ===================================================================== *)

(** References to heap objects. *)
Abbreviation loc := nat (only parsing).

(** The options object after the constructor's defaults and checks.
    [bitrate] stays an arbitrary value: the constructor checks its type
    only when it is truthy.  [logFn] is the [console] of the world. *)
Record Options := mkOptions {
  audioDirectory : string;
  bitrate : value;
  loop : bool;
  shuffle : bool
}.

(** The messages handed to [logFn]. *)
Inductive LogMsg :=
| LogFound (n : nat)                  (* "Found n songs." *)
| LogSinkCreated (id : string)        (* "New sink created with id ..." *)
| LogSinkClosed (id : string)         (* "Stream closed for sinkId ..." *)
| LogBitrateFallback (song : string)  (* "Error occurred while reading bitrate of ..." *)
| LogNoMoreSongs                      (* "No more songs to play." *)
| LogStopped                          (* "Radio stream has stopped playing." *)
| LogNowPlaying (song : option string) (bitRate : number)
| LogWillStop                         (* "Radio stream will stop playing after the current song." *)
| LogOffline.                         (* "A client attempted to connect ..., but radio is currently offline/not playing." *)

(** The fields of a [Player] object.  [None] is [null] / [undefined]. *)
Record PlayerFields := mkPlayer {
  _options : Options;
  _currentSongStream : option loc;
  sinks : Map loc;
  songs : list string;
  currentSong : option string;
  playing : bool
}.

(** The player, the objects it has created, and what the event loop
    still owes it.
    - [passThroughs], [readStreams]: every [PassThrough] and
      [fs.ReadStream] created so far; a reference is an index.
    - [pipes]: each [stream.pipe(new Throttle(bitRate / 8))] set up so
      far, as the byte source and the bitrate it is paced at.
    - [suspended]: the calls of [playNextSong] waiting at
      [await this.getBitRate(songPath)], by their [songPath].
    - [rejected]: the errors of [playNextSong] promises that rejected
      (nobody awaits them).
    - [randomCalls]: how many times [Math.random] has been called. *)
Record World := mkWorld {
  player : PlayerFields;
  passThroughs : list PassThrough;
  readStreams : list ReadStream;
  pipes : list (loc * number);
  suspended : list string;
  rejected : list error;
  console : list LogMsg;
  randomCalls : nat
}.

(** What the engine reads from outside: the file system and the random
    number generator.  [random k] is the numerator of the [k]-th value
    of [Math.random()] over [2^53]. *)
Record Env := mkEnv {
  existsSync : string -> bool;
  readdirSync : string -> option (list Dirent);
  random : nat -> N
}.

(** *** Field updates *)

Definition set_currentSongStream (s : option loc) (p : PlayerFields) : PlayerFields :=
  mkPlayer (_options p) s (sinks p) (songs p) (currentSong p) (playing p).
Definition set_sinks (m : Map loc) (p : PlayerFields) : PlayerFields :=
  mkPlayer (_options p) (_currentSongStream p) m (songs p) (currentSong p) (playing p).
Definition set_songs (l : list string) (p : PlayerFields) : PlayerFields :=
  mkPlayer (_options p) (_currentSongStream p) (sinks p) l (currentSong p) (playing p).
Definition set_currentSong (c : option string) (p : PlayerFields) : PlayerFields :=
  mkPlayer (_options p) (_currentSongStream p) (sinks p) (songs p) c (playing p).
Definition set_playing (b : bool) (p : PlayerFields) : PlayerFields :=
  mkPlayer (_options p) (_currentSongStream p) (sinks p) (songs p) (currentSong p) b.

Definition on_player (f : PlayerFields -> PlayerFields) (w : World) : World :=
  mkWorld (f (player w)) (passThroughs w) (readStreams w) (pipes w)
          (suspended w) (rejected w) (console w) (randomCalls w).
Definition on_passThroughs (f : list PassThrough -> list PassThrough) (w : World) : World :=
  mkWorld (player w) (f (passThroughs w)) (readStreams w) (pipes w)
          (suspended w) (rejected w) (console w) (randomCalls w).
Definition on_readStreams (f : list ReadStream -> list ReadStream) (w : World) : World :=
  mkWorld (player w) (passThroughs w) (f (readStreams w)) (pipes w)
          (suspended w) (rejected w) (console w) (randomCalls w).
Definition on_pipes (f : list (loc * number) -> list (loc * number)) (w : World) : World :=
  mkWorld (player w) (passThroughs w) (readStreams w) (f (pipes w))
          (suspended w) (rejected w) (console w) (randomCalls w).
Definition on_suspended (f : list string -> list string) (w : World) : World :=
  mkWorld (player w) (passThroughs w) (readStreams w) (pipes w)
          (f (suspended w)) (rejected w) (console w) (randomCalls w).
Definition on_rejected (f : list error -> list error) (w : World) : World :=
  mkWorld (player w) (passThroughs w) (readStreams w) (pipes w)
          (suspended w) (f (rejected w)) (console w) (randomCalls w).
Definition on_console (f : list LogMsg -> list LogMsg) (w : World) : World :=
  mkWorld (player w) (passThroughs w) (readStreams w) (pipes w)
          (suspended w) (rejected w) (f (console w)) (randomCalls w).
Definition on_randomCalls (f : nat -> nat) (w : World) : World :=
  mkWorld (player w) (passThroughs w) (readStreams w) (pipes w)
          (suspended w) (rejected w) (console w) (f (randomCalls w)).

(** *** The monad of method bodies: state and exceptions *)

Definition M (A : Type) : Type := World -> completion A * World.

#[global] Instance M_ret : MRet M := fun A a w => (Normal a, w).
#[global] Instance M_bind : MBind M := fun A B k m w =>
  match m w with
  | (Normal a, w') => k a w'
  | (Throw e, w') => (Throw e, w')
  end.

Definition throw {A} (e : error) : M A := fun w => (Throw e, w).
Definition gets {A} (f : World -> A) : M A := fun w => (Normal (f w), w).
Definition modify (f : World -> World) : M unit := fun w => (Normal tt, f w).

(** [try { body } catch (err) { handler }]. *)
Definition try_catch {A} (body : M A) (handler : error -> M A) : M A :=
  fun w =>
    match body w with
    | (Normal a, w') => (Normal a, w')
    | (Throw e, w') => handler e w'
    end.

(** Lifting a pure expression that may throw. *)
Definition eval {A} (c : completion A) : M A := fun w => (c, w).

(** [for (const x of xs) { body }]. *)
Fixpoint for_of {A} (xs : list A) (body : A -> M unit) : M unit :=
  match xs with
  | [] => mret tt
  | x :: xs' => body x;; for_of xs' body
  end.

(** Calling an [async] function and dropping its promise: a throw in the
    body rejects the promise and does not reach the caller. *)
Definition call_async (body : M unit) : M unit :=
  try_catch body (fun e => modify (on_rejected (fun r => r ++ [e]))).

(** *** Heap operations *)

Definition logFn (m : LogMsg) : M unit :=
  modify (on_console (fun c => c ++ [m])).

Definition alloc_PassThrough : M loc :=
  l ← gets (fun w => length (passThroughs w));
  modify (on_passThroughs (fun h => h ++ [new_PassThrough]));;
  mret l.

(** A method call on the [PassThrough] behind a reference. *)
Definition sink_call (f : PassThrough -> PassThrough) (l : loc) : M unit :=
  modify (on_passThroughs (alter f l)).

(** [fs.createReadStream(path)]. *)
Definition createReadStream (p : string) : M loc :=
  l ← gets (fun w => length (readStreams w));
  modify (on_readStreams (fun h => h ++ [mkReadStream p false]));;
  mret l.

(** [this._currentSongStream.destroy()]: a [TypeError] on [null]. *)
Definition currentSongStream_destroy : M unit :=
  s ← gets (fun w => _currentSongStream (player w));
  match s with
  | None => throw TypeError
  | Some l => modify (on_readStreams (alter rs_destroy l))
  end.

(* ===================================================================== *)
(** ** class Player (player.js) *)
(* ===================================================================== *)

Module Player.

(** [Math.floor(Math.random() * (i + 1))] at the [k]-th call of
    [Math.random]: an index in [0 .. i].  The product is taken exactly;
    the source rounds it to a double before [Math.floor], which for a
    few values of [Math.random()] draws the next index up.  Either way
    the index is in [0 .. i], which is all the properties below use:
    none of them names the order a shuffle produces. *)
Definition random_index (env : Env) (k i : nat) : nat :=
  N.to_nat ((random env k mod 2 ^ 53) * N.of_nat (i + 1) / 2 ^ 53)%N.

(** [[songs[i], songs[j]] = [songs[j], songs[i]]].  Both indices are
    inside the array wherever the loop below uses it. *)
Definition swap (songs : list string) (i j : nat) : list string :=
  match songs !! j, songs !! i with
  | Some sj, Some si => <[j := si]> (<[i := sj]> songs)
  | _, _ => songs
  end.

(** [for (let i = songs.length - 1; i > 0; i--) { ... }], entered at
    [i] with [k] earlier calls of [Math.random]. *)
Fixpoint shuffle_from (env : Env) (k i : nat) (songs : list string) : list string :=
  match i with
  | O => songs
  | S i' => shuffle_from env (S k) i' (swap songs i (random_index env k i))
  end.

Definition readSongs (env : Env) : M (list string) :=
  opts ← gets (fun w => _options (player w));
  audioDirectory ←
    match readdirSync env (audioDirectory opts) with
    | Some entries => mret entries
    | None => throw ReaddirError
    end;
  let songs :=
    map name
      (List.filter
         (fun item => truthy (isFile_property item)
                      && String.eqb (extname (name item)) ".mp3")
         audioDirectory) in
  if shuffle opts then
    k ← gets randomCalls;
    modify (on_randomCalls (fun n => (n + (length songs - 1))%nat));;
    mret (shuffle_from env k (length songs - 1) songs)
  else mret songs.

(** [id] is the value of [randomBytes(16).toString("hex")]. *)
Definition createResponseSink (id : string) : M (string * loc) :=
  logFn (LogSinkCreated id);;
  responseSink ← alloc_PassThrough;
  modify (on_player (fun p => set_sinks (Map_set id responseSink (sinks p)) p));;
  mret (id, responseSink).

Definition removeResponseSink (id : string) : M unit :=
  sink ← gets (fun w => Map_get id (sinks (player w)));
  match sink with
  | Some l => sink_call destroy l
  | None => mret tt
  end;;
  modify (on_player (fun p => set_sinks (Map_delete id (sinks p)) p));;
  logFn (LogSinkClosed id).

Definition broadcastChunk (chunk : Buffer) : M unit :=
  m ← gets (fun w => sinks (player w));
  for_of (Map_values m) (fun sink => sink_call (write chunk) sink).

(** [probe] is how the promise of [ffprobe(song)] settles; it is looked
    at only when no truthy [bitrate] is configured. *)
Definition getBitRate (song : string) (probe : ProbeOutcome) : M number :=
  try_catch
    (opts ← gets (fun w => _options (player w));
     bitRate ←
       (if truthy (bitrate opts) then mret (bitrate opts)
        else
          r ← match probe with
              | Resolved v => mret v
              | Rejected => throw ProbeError
              end;
          streams ← eval (get_prop r "streams");
          stream0 ← eval (get_index0 streams);
          eval (get_prop stream0 "bit_rate"));
     mret (parseInt bitRate))
    (fun err =>
       logFn (LogBitrateFallback song);;
       mret (Int 128000)).

(** [for (const [, sink] of this.sinks) { sink.end(); } this.sinks.clear();]
    as [stop], [playNextSong] and the ["end"] callback each spell it out. *)
Definition end_all_sinks : M unit :=
  m ← gets (fun w => sinks (player w));
  for_of (Map_values m) (fun sink => sink_call end_ sink);;
  modify (on_player (fun p => set_sinks (Map_clear (sinks p)) p)).

(** [playNextSong] up to [await this.getBitRate(songPath)], where the
    call is suspended ([proceed] is false after the early [return]). *)
Definition playNextSong (env : Env) : M unit :=
  n ← gets (fun w => length (songs (player w)));
  opts ← gets (fun w => _options (player w));
  proceed ←
    (if (n =? 0)%nat then
       if loop opts then
         l ← Player.readSongs env;
         modify (on_player (set_songs l));;
         mret true
       else
         logFn LogNoMoreSongs;;
         currentSongStream_destroy;;
         modify (on_player (set_currentSongStream None));;
         modify (on_player (set_playing false));;
         end_all_sinks;;
         logFn LogStopped;;
         mret false
     else mret true);
  if proceed : bool then
    q ← gets (fun w => songs (player w));
    modify (on_player (set_currentSong (head q)));;
    modify (on_player (set_songs (tail q)));;
    songPath ←
      match head q with
      | Some song => mret (path_join (audioDirectory opts) song)
      | None => throw TypeError
      end;
    s ← createReadStream songPath;
    modify (on_player (set_currentSongStream (Some s)));;
    modify (on_suspended (fun l => l ++ [songPath]))
  else mret tt.

(** The rest of [playNextSong], run when the [i]-th suspended call is
    resumed with the settled probe.  [getBitRate] reads nothing but the
    options, which no method assigns, so its whole body is run here. *)
Definition playNextSong_resume (i : nat) (probe : ProbeOutcome) : M unit :=
  pending ← gets (fun w => suspended w !! i);
  match pending with
  | None => mret tt
  | Some songPath =>
      modify (on_suspended (delete i));;
      bitRate ← getBitRate songPath probe;
      cur ← gets (fun w => currentSong (player w));
      logFn (LogNowPlaying cur bitRate);;
      modify (on_player (set_playing true));;
      s ← gets (fun w => _currentSongStream (player w));
      match s with
      | None => throw TypeError
      | Some l => modify (on_pipes (fun ps => ps ++ [(l, bitRate)]))
      end
  end.

(** The ["data"] callback of the pipe. *)
Definition on_data (chunk : Buffer) : M unit :=
  broadcastChunk chunk.

(** The ["end"] callback of the pipe. *)
Definition on_end (env : Env) : M unit :=
  p ← gets (fun w => playing (player w));
  if negb p then
    currentSongStream_destroy;;
    modify (on_player (set_currentSongStream None));;
    end_all_sinks;;
    logFn LogStopped
  else call_async (playNextSong env).

Definition start (env : Env) : M unit :=
  l ← readSongs env;
  modify (on_player (set_songs l));;
  call_async (playNextSong env).

Definition stop (graceful : bool) : M unit :=
  modify (on_player (set_songs []));;
  modify (on_player (set_playing false));;
  if negb graceful then
    currentSongStream_destroy;;
    modify (on_player (set_currentSongStream None));;
    end_all_sinks;;
    logFn LogStopped
  else logFn LogWillStop.

(** [new Player(options)]. *)
Definition new (opts : Options) : World :=
  mkWorld (mkPlayer opts None [] [] None false) [] [] [] [] [] [] 0.

Definition constructor (env : Env) (opts : Options) : completion unit * World :=
  (l ← readSongs env; logFn (LogFound (length l))) (new opts).

End Player.

(* ===================================================================== *)
(** ** class WebRadio (index.js) *)
(* ===================================================================== *)

Module WebRadio.

(** The options object as the caller passes it. *)
Record RawOptions := mkRaw {
  raw_audioDirectory : value;
  raw_bitrate : value;
  raw_loop : value;
  raw_shuffle : value;
  raw_logFn : value
}.

Definition is_undefined (v : value) : bool :=
  match v with
  | VUndefined => true
  | _ => false
  end.

(** The defaults ("write validation for options here"). *)
Definition defaults (o : RawOptions) : RawOptions :=
  let o := if negb (truthy (raw_audioDirectory o))
           then mkRaw (VStr "./audio") (raw_bitrate o) (raw_loop o) (raw_shuffle o) (raw_logFn o)
           else o in
  let o := if is_undefined (raw_loop o)
           then mkRaw (raw_audioDirectory o) (raw_bitrate o) (VBool true) (raw_shuffle o) (raw_logFn o)
           else o in
  let o := if is_undefined (raw_shuffle o)
           then mkRaw (raw_audioDirectory o) (raw_bitrate o) (raw_loop o) (VBool false) (raw_logFn o)
           else o in
  if negb (truthy (raw_logFn o))
  then mkRaw (raw_audioDirectory o) (raw_bitrate o) (raw_loop o) (raw_shuffle o) VFun
  else o.

(** The checks ("validate options"), in the order of the source. *)
Definition validate (env : Env) (o : RawOptions) : completion Options :=
  match raw_audioDirectory o with
  | VStr dir =>
      if negb (existsSync env dir) then Throw DirectoryMissing
      else if truthy (raw_bitrate o)
              && negb (type_tag_eqb (typeof (raw_bitrate o)) TNumber)
      then Throw BitrateNotNumber
      else
        match raw_loop o with
        | VBool l =>
            match raw_shuffle o with
            | VBool s =>
                if negb (type_tag_eqb (typeof (raw_logFn o)) TFunction)
                then Throw LogFnNotFunction
                else Normal (mkOptions dir (raw_bitrate o) l s)
            | _ => Throw ShuffleNotBoolean
            end
        | _ => Throw LoopNotBoolean
        end
  | _ => Throw DirectoryNotString
  end.

(** [new WebRadio(options)]: the world holding the new player, or the
    error thrown. *)
Definition constructor (env : Env) (options : RawOptions) : completion World :=
  match validate env (defaults options) with
  | Throw e => Throw e
  | Normal opts =>
      match Player.constructor env opts with
      | (Throw e, _) => Throw e
      | (Normal _, w) =>
          match Player.readSongs env w with
          | (Throw e, _) => Throw e
          | (Normal l, w') =>
              if (length l =? 0)%nat then Throw NoMp3Files else Normal w'
          end
      end
  end.

(** [this.playing] on the [WebRadio] object itself: no code assigns it. *)
Definition this_playing : value := VUndefined.

Definition start (env : Env) : M unit :=
  s ← gets (fun w => _currentSongStream (player w));
  if truthy this_playing || bool_decide (s ≠ None)
  then throw AlreadyPlaying
  else Player.start env.

Definition stop (graceful : bool) : M unit :=
  p ← gets (fun w => playing (player w));
  if negb p then throw NotPlaying
  else Player.stop graceful.

(** What the middleware returned by [connect()] answers to a request. *)
Inductive Response :=
| ServiceUnavailable                          (* 503 "Radio is offline." *)
| Streaming (id : string) (responseSink : loc).
    (* 200 audio/mpeg; every chunk and the end of [responseSink] are
       relayed to the client *)

(** The middleware, for a request whose sink gets the identifier [id]. *)
Definition connect (id : string) : M Response :=
  p ← gets (fun w => playing (player w));
  s ← gets (fun w => _currentSongStream (player w));
  if negb p && bool_decide (s = None) then
    logFn LogOffline;;
    mret ServiceUnavailable
  else
    '(id, responseSink) ← Player.createResponseSink id;
    mret (Streaming id responseSink).

(** The ["close"] callback of the response of a connected request. *)
Definition on_close (radioSinkId : string) : M unit :=
  Player.removeResponseSink radioSinkId.

End WebRadio.

(* ===================================================================== *)
(** ** The event loop *)
(* ===================================================================== *)

(** What can happen to a radio: a call of its public interface, or a
    callback fired by the environment.  [Data] and [End] come from the
    Pacer of the current track; the byte source being a finite file, the
    Pacer fires [Data] for each of its chunks and then [End]. *)
Inductive event :=
| Start
| Stop (graceful : bool)
| Connect (id : string)
| Close (id : string)
| Resume (i : nat) (probe : ProbeOutcome)
| Data (chunk : Buffer)
| End.

Definition handle (env : Env) (e : event) : M unit :=
  match e with
  | Start => WebRadio.start env
  | Stop graceful => WebRadio.stop graceful
  | Connect id => WebRadio.connect id;; mret tt
  | Close id => WebRadio.on_close id
  | Resume i probe => call_async (Player.playNextSong_resume i probe)
  | Data chunk => Player.on_data chunk
  | End => Player.on_end env
  end.

(** Running a sequence of events; an error thrown to the caller or to the
    event loop leaves the world as the throwing code left it. *)
Definition run (env : Env) (es : list event) (w : World) : World :=
  fold_left (fun w e => snd (handle env e w)) es w.

(* ===================================================================== *)
(** ** Notions used in the statements *)
(* ===================================================================== *)

(** The heap after one method has been called on each sink of a list, in
    order: what a [for ... of this.sinks] loop of method calls does. *)
Definition call_each (f : PassThrough -> PassThrough) (ls : list loc)
    (h : list PassThrough) : list PassThrough :=
  fold_left (fun h l => alter f l h) ls h.

(** The state after the teardown shared by the three stopping paths,
    field by field. *)
Definition torn_down (before after : World) (stream : loc) : Prop :=
  _currentSongStream (player after) = None
  /\ readStreams after = alter rs_destroy stream (readStreams before)
  /\ sinks (player after) = []
  /\ passThroughs after
     = call_each end_ (Map_values (sinks (player before))) (passThroughs before)
  /\ playing (player after) = false
  /\ pipes after = pipes before
  /\ suspended after = suspended before.

(** Writing a sequence of chunks to one sink. *)
Definition write_all (chunks : list Buffer) (s : PassThrough) : PassThrough :=
  fold_left (fun s c => write c s) chunks s.

(** Broadcasting a sequence of chunks to a fixed list of sinks. *)
Definition broadcast_all (chunks : list Buffer) (ls : list loc)
    (h : list PassThrough) : list PassThrough :=
  fold_left (fun h c => call_each (write c) ls h) chunks h.

(** The sink behind a reference accepts writes. *)
Definition live (h : list PassThrough) (sink : loc) : bool :=
  match h !! sink with
  | Some s => negb (write_fails s)
  | None => false
  end.

(** The registry is live: no sink is registered twice, and every
    registered sink is on the heap, not ended and not destroyed. *)
Definition live_registry (w : World) : bool :=
  bool_decide (NoDup (Map_values (sinks (player w))))
  && forallb (live (passThroughs w)) (Map_values (sinks (player w))).

(** The integer a string of decimal digits denotes, read left to right
    onto an accumulator. *)
Fixpoint uint_value (u : Decimal.uint) (acc : Z) : Z :=
  match u with
  | Decimal.Nil => acc
  | Decimal.D0 u => uint_value u (10 * acc + 0)
  | Decimal.D1 u => uint_value u (10 * acc + 1)
  | Decimal.D2 u => uint_value u (10 * acc + 2)
  | Decimal.D3 u => uint_value u (10 * acc + 3)
  | Decimal.D4 u => uint_value u (10 * acc + 4)
  | Decimal.D5 u => uint_value u (10 * acc + 5)
  | Decimal.D6 u => uint_value u (10 * acc + 6)
  | Decimal.D7 u => uint_value u (10 * acc + 7)
  | Decimal.D8 u => uint_value u (10 * acc + 8)
  | Decimal.D9 u => uint_value u (10 * acc + 9)
  end.

(** The characters [Number::toString] prints for a digit sequence. *)
Definition chars_of_uint (u : Decimal.uint) : list ascii :=
  String.list_ascii_of_string (NilEmpty.string_of_uint u).

(** The expression [(await ffprobe(song)).streams[0].bit_rate]. *)
Definition probed_bit_rate (probe : ProbeOutcome) : completion value :=
  match probe with
  | Rejected => Throw ProbeError
  | Resolved r =>
      match get_prop r "streams" with
      | Throw e => Throw e
      | Normal streams =>
          match get_index0 streams with
          | Throw e => Throw e
          | Normal stream0 => get_prop stream0 "bit_rate"
          end
      end
  end.

(** What [readSongs] keeps when it does not shuffle: the names with
    extension [.mp3], in directory order.  The kind of the entry plays
    no part, [item.isFile] being a function object and so truthy. *)
Definition mp3_names (entries : list Dirent) : list string :=
  map name
    (List.filter (fun item => String.eqb (extname (name item)) ".mp3") entries).

(** The caller's options with [bitrate: v]. *)
Definition with_raw_bitrate (v : value) (o : WebRadio.RawOptions) : WebRadio.RawOptions :=
  WebRadio.mkRaw (WebRadio.raw_audioDirectory o) v (WebRadio.raw_loop o)
                 (WebRadio.raw_shuffle o) (WebRadio.raw_logFn o).

(** Checked options with [bitrate] replaced by [v]. *)
Definition with_bitrate (v : value) (o : Options) : Options :=
  mkOptions (audioDirectory o) v (loop o) (shuffle o).

(** The world whose player has [v] as its [bitrate] option. *)
Definition configured (v : value) (w : World) : World :=
  on_player (fun p => mkPlayer (with_bitrate v (_options p)) (_currentSongStream p)
                        (sinks p) (songs p) (currentSong p) (playing p)) w.

(** What a method body other than the three that serve one listener
    may do to the registry: leave the registry and the sinks on the heap
    as they are, or end every registered sink and clear the registry. *)
Definition registry_step (w w' : World) : Prop :=
  (sinks (player w') = sinks (player w) /\ passThroughs w' = passThroughs w)
  \/ (sinks (player w') = []
      /\ passThroughs w'
         = call_each end_ (Map_values (sinks (player w))) (passThroughs w)).

(** Every run of [m], whether it returns or throws, relates the world it
    starts in to the world it leaves. *)
Definition keeps {A} (R : World -> World -> Prop) (m : M A) : Prop :=
  forall w, R w (snd (m w)).

(** The world once [song] has been taken off the queue and opened as
    the file [dir/song]. *)
Definition opened (dir song : string) (rest : list string) (w : World) : World :=
  on_suspended (fun l => l ++ [path_join dir song])
    (on_player (set_currentSongStream (Some (length (readStreams w))))
       (on_readStreams (fun h => h ++ [mkReadStream (path_join dir song) false])
          (on_player (set_songs rest)
             (on_player (set_currentSong (Some song)) w)))).

(** [song] has been taken off the front of the queue and opened as the
    current track; the call is parked at the bitrate probe.  The flag,
    the registry, the sinks and the pipes are as before, and the engine
    has made no call on an earlier byte source. *)
Definition opens_track (before after : World) (song : string) (rest : list string) : Prop :=
  let p := path_join (audioDirectory (_options (player before))) song in
  currentSong (player after) = Some song
  /\ songs (player after) = rest
  /\ _currentSongStream (player after) = Some (length (readStreams before))
  /\ readStreams after = readStreams before ++ [mkReadStream p false]
  /\ suspended after = suspended before ++ [p]
  /\ playing (player after) = playing (player before)
  /\ sinks (player after) = sinks (player before)
  /\ passThroughs after = passThroughs before
  /\ pipes after = pipes before
  /\ rejected after = rejected before
  /\ _options (player after) = _options (player before).

(** The chunks the Pacer emits in a sequence of events, in order. *)
Definition chunks_of (es : list event) : list Buffer :=
  omap (fun e => match e with
                 | Data chunk => Some chunk
                 | _ => None
                 end) es.

(** The listener [id] stays connected through a sequence of events:
    after each of them the registry still binds [id] to [sink]. *)
Fixpoint stays_connected (env : Env) (id : string) (sink : loc)
    (es : list event) (w : World) : bool :=
  match es with
  | [] => true
  | e :: es' =>
      let w' := snd (handle env e w) in
      bool_decide (Map_get id (sinks (player w')) = Some sink)
      && stays_connected env id sink es' w'
  end.

(** The radio answers a request with the stream: the flag is on or a
    byte source is current. *)
Definition online (w : World) : Prop :=
  playing (player w) = true \/ _currentSongStream (player w) <> None.

(** What the environment does for one track: it settles the bitrate
    probe, the Pacer emits the track's chunks, then signals the end. *)
Definition track_events (t : ProbeOutcome * list Buffer) : list event :=
  Resume 0 (fst t) :: map Data (snd t) ++ [End].

Definition playlist_events (tracks : list (ProbeOutcome * list Buffer)) : list event :=
  concat (map track_events tracks).

(** Every queued song is a track name of the audio directory's listing,
    and every byte source ever opened is the file of such a name under
    the audio directory. *)
Definition from_catalog (env : Env) (w : World) : Prop :=
  exists entries,
    readdirSync env (audioDirectory (_options (player w))) = Some entries
    /\ Forall (fun song => song ∈ mp3_names entries) (songs (player w))
    /\ Forall (fun p => exists song,
                   song ∈ mp3_names entries
                   /\ p = path_join (audioDirectory (_options (player w))) song)
              (map path (readStreams w)).

(* ===================================================================== *)
(** ** A worked scenario *)
(* ===================================================================== *)

(** An audio directory with two tracks and a text file; [Math.random]
    returns [k / 2^53] at its [k]-th call. *)
Definition demo_env : Env :=
  mkEnv (fun _ => true)
        (fun _ => Some [mkDirent "a.mp3" RegularFile;
                        mkDirent "notes.txt" RegularFile;
                        mkDirent "b.mp3" RegularFile])
        (fun k => N.of_nat k).

(** [{ loop: false }]. *)
Definition demo_options : WebRadio.RawOptions :=
  WebRadio.mkRaw VUndefined VUndefined (VBool false) VUndefined VUndefined.

(** [new WebRadio({ loop: false })] in that directory. *)
Definition demo_radio : World :=
  match WebRadio.constructor demo_env demo_options with
  | Normal w => w
  | Throw _ => Player.new (mkOptions "./audio" VUndefined false false)
  end.

(** Three chunks of file bytes. *)
Definition chunk1 : Buffer := [Byte.x49; Byte.x44; Byte.x33].
Definition chunk2 : Buffer := [Byte.xff; Byte.xfb].
Definition chunk3 : Buffer := [Byte.x00].

(** The radio has been started, a listener has connected, the bitrate
    probe has failed and the first chunk of [a.mp3] has gone out. *)
Definition demo_playing : World :=
  run demo_env [Start; Connect "aa"; Resume 0 Rejected; Data chunk1] demo_radio.

(** The scenario, run to the end of its second track. *)
Definition demo_last_track : World :=
  run demo_env [End; Resume 0 Rejected; Data chunk2] demo_playing.

(** ffprobe's report of a file whose first stream carries no [bit_rate]
    (an attached picture, say). *)
Definition probe_without_bit_rate : ProbeOutcome :=
  Resolved
    (VObj [("streams",
            VArr [VObj [("index", VNum (Int 0)); ("codec_name", VStr "mjpeg")]])]).

(** An audio directory holding a folder whose name ends in [.mp3]. *)
Definition folder_env : Env :=
  mkEnv (fun _ => true)
        (fun _ => Some [mkDirent "a.mp3" RegularFile;
                        mkDirent "live-set.mp3" Directory;
                        mkDirent "b.mp3" RegularFile])
        (fun k => N.of_nat k).

(** ffprobe's report of a 320 kbit/s file. *)
Definition probe_320k : ProbeOutcome :=
  Resolved (VObj [("streams", VArr [VObj [("bit_rate", VStr "320000")]])]).

Definition demo_entries : list Dirent :=
  [mkDirent "a.mp3" RegularFile; mkDirent "notes.txt" RegularFile;
   mkDirent "b.mp3" RegularFile].

(** An audio directory without tracks, and one that cannot be listed. *)
Definition empty_env : Env :=
  mkEnv (fun _ => true) (fun _ => Some [mkDirent "notes.txt" RegularFile])
        (fun k => N.of_nat k).

Definition unreadable_env : Env :=
  mkEnv (fun _ => true) (fun _ => None) (fun k => N.of_nat k).

(** [new WebRadio()]: every option left to its default, [loop] on. *)
Definition demo_loop_radio : World :=
  match WebRadio.constructor demo_env
          (WebRadio.mkRaw VUndefined VUndefined VUndefined VUndefined VUndefined) with
  | Normal w => w
  | Throw _ => Player.new (mkOptions "./audio" VUndefined true false)
  end.

(** Right after [start()], with one listener, the first bitrate pending. *)
Definition demo_started : World :=
  run demo_env [Start; Connect "aa"] demo_radio.

(** [a.mp3] has ended and [b.mp3] has been opened, its bitrate pending. *)
Definition demo_between : World := run demo_env [End] demo_playing.

(** The same on the looping radio, and then with [b.mp3] playing. *)
Definition demo_loop_between : World :=
  run demo_env [Start; Connect "aa"; Resume 0 Rejected; End] demo_loop_radio.

Definition demo_loop_last : World :=
  run demo_env [Resume 0 Rejected] demo_loop_between.

(** Two listeners. *)
Definition demo_two_listeners : World :=
  run demo_env [Connect "bb"] demo_playing.

(** What the environment serves for the two tracks. *)
Definition demo_tracks : list (ProbeOutcome * list Buffer) :=
  [(Rejected, [chunk1; chunk2]); (probe_320k, [chunk3])].

(* ===================================================================== *)
(** ** Running method bodies symbolically *)
(* ===================================================================== *)

Ltac unfold_monad :=
  cbv beta iota zeta delta
    [mbind M_bind mret M_ret gets modify throw eval try_catch
     call_async logFn currentSongStream_destroy] in *.

(** Reading a field of an updated world. *)
Ltac fields :=
  cbn [fst snd negb andb orb
       player passThroughs readStreams pipes suspended rejected console
       randomCalls _options _currentSongStream sinks songs currentSong playing
       on_player on_passThroughs on_readStreams on_pipes on_suspended
       on_rejected on_console on_randomCalls
       set_currentSongStream set_sinks set_songs set_currentSong set_playing
       Map_clear] in *.

Lemma for_of_sink_call f ls w :
  for_of ls (fun sink => sink_call f sink) w
  = (Normal tt, on_passThroughs (call_each f ls) w).
Proof.
  revert w. induction ls as [|l ls IH]; intros w.
  - destruct w; reflexivity.
  - simpl. unfold mbind, M_bind. unfold sink_call at 1, modify.
    rewrite IH. destruct w; reflexivity.
Qed.

Lemma call_each_length f ls h : length (call_each f ls h) = length h.
Proof.
  revert h. induction ls as [|l ls IH]; intros h; simpl; [done|].
  rewrite IH. apply length_alter.
Qed.

Lemma call_each_notin f ls h l :
  l ∉ ls -> call_each f ls h !! l = h !! l.
Proof.
  revert h. induction ls as [|l' ls IH]; intros h Hl; simpl; [done|].
  apply not_elem_of_cons in Hl as [Hne Hl].
  rewrite IH by done. by apply list_lookup_alter_ne.
Qed.

Lemma call_each_once f ls h l :
  NoDup ls -> l ∈ ls -> call_each f ls h !! l = f <$> h !! l.
Proof.
  revert h. induction ls as [|l' ls IH]; intros h Hnd Hl.
  - by apply elem_of_nil in Hl.
  - apply NoDup_cons in Hnd as [Hnotin Hnd]. simpl.
    apply elem_of_cons in Hl as [->|Hl].
    + rewrite call_each_notin by done. apply list_lookup_alter_eq.
    + rewrite IH by done.
      rewrite list_lookup_alter_ne; [done|]. intros ->. contradiction.
Qed.

(** With an idempotent method ([end()], [destroy()]) repetitions in the
    list do not matter. *)
Lemma call_each_idem f ls h l :
  (forall s, f (f s) = f s) ->
  l ∈ ls -> call_each f ls h !! l = f <$> h !! l.
Proof.
  intros Hf. revert h. induction ls as [|l' ls IH]; intros h Hl.
  - by apply elem_of_nil in Hl.
  - simpl. destruct (decide (l ∈ ls)) as [Hin|Hnotin].
    + rewrite IH by done.
      destruct (decide (l' = l)) as [->|Hne].
      * rewrite list_lookup_alter_eq. destruct (h !! l); simpl; [f_equal; apply Hf | done].
      * by rewrite list_lookup_alter_ne.
    + apply elem_of_cons in Hl as [->|Hl]; [|contradiction].
      rewrite call_each_notin by done. apply list_lookup_alter_eq.
Qed.

(* ===================================================================== *)
(** ** The sink registry *)
(* ===================================================================== *)

Section MapFacts.
Context {V : Type}.
Implicit Types (m : Map V) (k : string).

Lemma Map_get_delete k m : Map_get k (Map_delete k m) = None.
Proof.
  induction m as [|[k' v] m IH]; simpl; [done|].
  destruct (String.eqb k k') eqn:E; simpl; [done|]. by rewrite E.
Qed.

Lemma Map_delete_absent k m : Map_get k m = None -> Map_delete k m = m.
Proof.
  induction m as [|[k' v] m IH]; simpl; [done|].
  destruct (String.eqb k k') eqn:E; simpl; [done|].
  intros H. by rewrite IH.
Qed.

Lemma Map_delete_idem k m : Map_delete k (Map_delete k m) = Map_delete k m.
Proof. apply Map_delete_absent, Map_get_delete. Qed.

Lemma Map_get_values k m v : Map_get k m = Some v -> v ∈ Map_values m.
Proof.
  induction m as [|[k' v'] m IH]; simpl; [done|].
  destruct (String.eqb k k').
  - intros [= ->]. apply elem_of_cons. by left.
  - intros H. apply elem_of_cons. right. by apply IH.
Qed.

Lemma Map_values_delete k m v : v ∈ Map_values (Map_delete k m) -> v ∈ Map_values m.
Proof.
  induction m as [|[k' v'] m IH]; simpl; [done|].
  destruct (String.eqb k k'); simpl.
  - intros H. apply elem_of_cons. right. by apply IH.
  - intros [->|H]%elem_of_cons; apply elem_of_cons; [by left|right; by apply IH].
Qed.

Lemma Map_get_set_eq k v m : Map_get k (Map_set k v m) = Some v.
Proof.
  induction m as [|[k' v'] m IH]; simpl.
  - by rewrite String.eqb_refl.
  - destruct (String.eqb k k') eqn:E; simpl; by rewrite E.
Qed.

Lemma Map_values_set k v m x :
  x ∈ Map_values (Map_set k v m) -> x = v \/ x ∈ Map_values m.
Proof.
  induction m as [|[k' v'] m IH]; simpl.
  - intros [->|H]%elem_of_cons; [by left|by right].
  - destruct (String.eqb k k'); simpl.
    + intros [->|H]%elem_of_cons; [by left|]. right. apply elem_of_cons. by right.
    + intros [->|H]%elem_of_cons.
      * right. apply elem_of_cons. by left.
      * destruct (IH H) as [->|H']; [by left|]. right. apply elem_of_cons. by right.
Qed.
End MapFacts.

Lemma removeResponseSink_run id w :
  Player.removeResponseSink id w
  = (Normal tt,
     on_console (fun c => c ++ [LogSinkClosed id])
       (on_player (fun p => set_sinks (Map_delete id (sinks p)) p)
          match Map_get id (sinks (player w)) with
          | Some sink => on_passThroughs (alter destroy sink) w
          | None => w
          end)).
Proof.
  unfold Player.removeResponseSink. unfold_monad. unfold sink_call, modify.
  destruct (Map_get id (sinks (player w))); reflexivity.
Qed.

Lemma removeResponseSink_sinks id w :
  sinks (player (snd (Player.removeResponseSink id w)))
  = Map_delete id (sinks (player w)).
Proof.
  rewrite removeResponseSink_run.
  destruct (Map_get id (sinks (player w))); reflexivity.
Qed.

Lemma removeResponseSink_heap id w :
  passThroughs (snd (Player.removeResponseSink id w))
  = match Map_get id (sinks (player w)) with
    | Some sink => alter destroy sink (passThroughs w)
    | None => passThroughs w
    end.
Proof.
  rewrite removeResponseSink_run.
  destruct (Map_get id (sinks (player w))); reflexivity.
Qed.

(** C8.  [removeResponseSink(id)] completes normally and leaves the
    registry with [id] deleted.  If [id] was present, the sink it named
    has been destroyed (its channel is released) and nothing else on the
    heap has changed; if [id] was absent, the registry and the heap are
    unchanged.  Removing twice yields the same registry, and the same
    heap, as removing once. *)
Theorem removeResponseSink_idempotent (id : string) (w : World) :
  let w1 := snd (Player.removeResponseSink id w) in
  let w2 := snd (Player.removeResponseSink id w1) in
  fst (Player.removeResponseSink id w) = Normal tt
  /\ sinks (player w1) = Map_delete id (sinks (player w))
  /\ Map_get id (sinks (player w1)) = None
  /\ match Map_get id (sinks (player w)) with
     | Some sink => passThroughs w1 = alter destroy sink (passThroughs w)
     | None => sinks (player w1) = sinks (player w)
               /\ passThroughs w1 = passThroughs w
     end
  /\ fst (Player.removeResponseSink id w1) = Normal tt
  /\ sinks (player w2) = sinks (player w1)
  /\ passThroughs w2 = passThroughs w1.
Proof.
  intros w1 w2. subst w2 w1.
  rewrite !removeResponseSink_heap, !removeResponseSink_sinks.
  rewrite Map_get_delete, Map_delete_idem.
  repeat split; try (by rewrite removeResponseSink_run).
  destruct (Map_get id (sinks (player w))) eqn:Hget; [done|].
  split; [by apply Map_delete_absent | done].
Qed.

(** The same on the scenario: the listener ["aa"] disconnects twice. *)
Example removeResponseSink_demo :
  let w1 := run demo_env [Close "aa"] demo_playing in
  let w2 := run demo_env [Close "aa"] w1 in
  sinks (player demo_playing) = [("aa", 0%nat)]
  /\ sinks (player w1) = []
  /\ passThroughs w1 = [mkPassThrough [chunk1] false true]
  /\ sinks (player w2) = sinks (player w1)
  /\ passThroughs w2 = passThroughs w1.
Proof. vm_compute. repeat split. Qed.

(* ===================================================================== *)
(** ** Stopping *)
(* ===================================================================== *)

Lemma end_all_sinks_run w :
  Player.end_all_sinks w
  = (Normal tt,
     on_player (fun p => set_sinks [] p)
       (on_passThroughs (call_each end_ (Map_values (sinks (player w)))) w)).
Proof.
  unfold Player.end_all_sinks. unfold_monad.
  rewrite for_of_sink_call. reflexivity.
Qed.

Lemma Player_stop_false w stream :
  _currentSongStream (player w) = Some stream ->
  fst (Player.stop false w) = Normal tt
  /\ torn_down w (snd (Player.stop false w)) stream
  /\ songs (player (snd (Player.stop false w))) = [].
Proof.
  intros Hs. unfold Player.stop, Player.end_all_sinks. unfold_monad. fields.
  rewrite Hs, for_of_sink_call. unfold torn_down. fields. done.
Qed.

Lemma Player_stop_true w :
  Player.stop true w
  = (Normal tt,
     on_console (fun c => c ++ [LogWillStop])
       (on_player (set_playing false) (on_player (set_songs []) w))).
Proof. reflexivity. Qed.

Lemma WebRadio_stop_not_playing g w :
  playing (player w) = false -> WebRadio.stop g w = (Throw NotPlaying, w).
Proof. intros H. unfold WebRadio.stop. unfold_monad. by rewrite H. Qed.

Lemma WebRadio_stop_playing g w :
  playing (player w) = true -> WebRadio.stop g w = Player.stop g w.
Proof. intros H. unfold WebRadio.stop. unfold_monad. by rewrite H. Qed.

Lemma WebRadio_start_active env w :
  _currentSongStream (player w) <> None ->
  WebRadio.start env w = (Throw AlreadyPlaying, w).
Proof.
  intros H. unfold WebRadio.start. unfold_monad.
  rewrite bool_decide_true by done. reflexivity.
Qed.

(** Every sink that was registered has had [end()] called on it. *)
Lemma call_each_end_ended ls h :
  Forall (fun sink => ended <$> call_each end_ ls h !! sink
                      = (fun _ => true) <$> h !! sink) ls.
Proof.
  apply Forall_forall. intros l Hl.
  rewrite call_each_idem by (done || by intros []).
  by destruct (h !! l).
Qed.

(** C6.  [start()] while an Active Playback exists (the current song's
    byte source is set, as it is throughout Playing) throws the
    already-playing error, and [stop()] while the player's [playing]
    flag is off throws the not-playing error.  Either call returns the
    world it was given: queue, sinks, flag and byte source are the
    same. *)
Theorem contract_errors_change_nothing (env : Env) (graceful : bool) (w1 w2 : World) :
  _currentSongStream (player w1) <> None ->
  playing (player w2) = false ->
  WebRadio.start env w1 = (Throw AlreadyPlaying, w1)
  /\ WebRadio.stop graceful w2 = (Throw NotPlaying, w2).
Proof.
  intros Hactive Hoff. split.
  - by apply WebRadio_start_active.
  - by apply WebRadio_stop_not_playing.
Qed.

Lemma contract_errors_change_nothing_witness :
  WebRadio.start demo_env demo_playing = (Throw AlreadyPlaying, demo_playing)
  /\ WebRadio.stop false demo_radio = (Throw NotPlaying, demo_radio).
Proof.
  apply (contract_errors_change_nothing demo_env false demo_playing demo_radio).
  - vm_compute. discriminate.
  - vm_compute. reflexivity.
Defined.

(** C1, as the specification states it, fails on the scenario: after a
    graceful stop request the hard stop is refused with the not-playing
    error, the byte source of [a.mp3] stays open and current, and the
    listener ["aa"] stays registered with its channel open. *)
Lemma hard_stop_refused_while_stopping_gracefully :
  let w1 := snd (WebRadio.stop true demo_playing) in
  playing (player demo_playing) = true
  /\ fst (WebRadio.stop true demo_playing) = Normal tt
  /\ WebRadio.stop false w1 = (Throw NotPlaying, w1)
  /\ _currentSongStream (player w1) = Some 0%nat
  /\ readStreams w1 = [mkReadStream "./audio/a.mp3" false]
  /\ sinks (player w1) = [("aa", 0%nat)]
  /\ passThroughs w1 = [mkPassThrough [chunk1] false false].
Proof. vm_compute. repeat split. Qed.

(** C1, amended.  While Playing, [stop(false)] stops at once: the queue
    is emptied, the byte source is destroyed and forgotten, every
    registered sink is ended, the registry is cleared and the flag is
    off.  Once [stop(true)] has been accepted the flag is already off, so
    a following [stop(false)] throws the not-playing error and changes
    nothing. *)
Theorem hard_stop_only_while_playing (w : World) (stream : loc) :
  playing (player w) = true ->
  _currentSongStream (player w) = Some stream ->
  let stopped := snd (WebRadio.stop false w) in
  let stopping := snd (WebRadio.stop true w) in
  (fst (WebRadio.stop false w) = Normal tt
   /\ songs (player stopped) = []
   /\ _currentSongStream (player stopped) = None
   /\ readStreams stopped = alter rs_destroy stream (readStreams w)
   /\ Forall (fun sink => ended <$> passThroughs stopped !! sink
                          = (fun _ => true) <$> passThroughs w !! sink)
             (Map_values (sinks (player w)))
   /\ sinks (player stopped) = []
   /\ playing (player stopped) = false)
  /\ fst (WebRadio.stop true w) = Normal tt
  /\ WebRadio.stop false stopping = (Throw NotPlaying, stopping).
Proof.
  intros Hon Hs stopped stopping. subst stopped stopping.
  rewrite !WebRadio_stop_playing by done.
  destruct (Player_stop_false w stream Hs)
    as (Hok & (Hnull & Hrs & Hreg & Hheap & Hoff & _ & _) & Hq).
  split; [|split].
  - repeat split; try done. rewrite Hheap. apply call_each_end_ended.
  - by rewrite Player_stop_true.
  - apply WebRadio_stop_not_playing. by rewrite Player_stop_true.
Qed.

Lemma hard_stop_only_while_playing_witness :
  let stopped := snd (WebRadio.stop false demo_playing) in
  let stopping := snd (WebRadio.stop true demo_playing) in
  (fst (WebRadio.stop false demo_playing) = Normal tt
   /\ songs (player stopped) = []
   /\ _currentSongStream (player stopped) = None
   /\ readStreams stopped = alter rs_destroy 0%nat (readStreams demo_playing)
   /\ Forall (fun sink => ended <$> passThroughs stopped !! sink
                          = (fun _ => true) <$> passThroughs demo_playing !! sink)
             (Map_values (sinks (player demo_playing)))
   /\ sinks (player stopped) = []
   /\ playing (player stopped) = false)
  /\ fst (WebRadio.stop true demo_playing) = Normal tt
  /\ WebRadio.stop false stopping = (Throw NotPlaying, stopping).
Proof.
  apply (hard_stop_only_while_playing demo_playing 0%nat).
  - vm_compute. reflexivity.
  - vm_compute. reflexivity.
Defined.

(** The two guards read different fields: [start()] the byte source,
    [stop()] the [playing] flag, which [playNextSong] sets only after
    the bitrate is resolved.  Right after [start()] a second [start()]
    is refused as already playing and [stop()] as not playing. *)
Example guards_right_after_start :
  let w := run demo_env [Start] demo_radio in
  playing (player w) = false
  /\ _currentSongStream (player w) = Some 0%nat
  /\ fst (WebRadio.start demo_env w) = Throw AlreadyPlaying
  /\ fst (WebRadio.stop false w) = Throw NotPlaying.
Proof. vm_compute. repeat split. Qed.

(** A hard stop that falls between two tracks, while the bitrate of the
    next one is being resolved, leaves the flag on with no byte source
    once the suspended [playNextSong] resumes (and fails on
    [null.pipe]). *)
Example hard_stop_between_tracks :
  let w := run demo_env [End; Stop false; Resume 0 Rejected] demo_playing in
  playing (player w) = true
  /\ _currentSongStream (player w) = None
  /\ rejected w = [TypeError]
  /\ fst (WebRadio.start demo_env w) = Normal tt
  /\ fst (WebRadio.stop false w) = Throw TypeError.
Proof. vm_compute. repeat split. Qed.

(* ===================================================================== *)
(** ** The end of a track *)
(* ===================================================================== *)

Lemma on_end_exhausted env w stream :
  songs (player w) = [] ->
  loop (_options (player w)) = false ->
  _currentSongStream (player w) = Some stream ->
  fst (Player.on_end env w) = Normal tt
  /\ torn_down w (snd (Player.on_end env w)) stream
  /\ songs (player (snd (Player.on_end env w))) = []
  /\ currentSong (player (snd (Player.on_end env w))) = currentSong (player w)
  /\ rejected (snd (Player.on_end env w)) = rejected w.
Proof.
  intros Hq Hloop Hs.
  unfold Player.on_end, Player.playNextSong, Player.end_all_sinks.
  unfold_monad. fields.
  destruct (playing (player w)) eqn:Hp; fields.
  - rewrite Hq, Hloop. cbn [length Nat.eqb]. fields.
    rewrite Hs, for_of_sink_call. unfold torn_down. fields. done.
  - rewrite Hs, for_of_sink_call. unfold torn_down. fields. done.
Qed.

(** C4.  When the ["end"] callback of the current track's Pacer runs with
    an empty queue and looping disabled, the engine stops: the byte
    source is destroyed and [_currentSongStream] is [null], [end()] has
    been called on every registered sink, the registry is empty, the
    [playing] flag is off, and no further track has been opened. *)
Theorem exhausted_queue_without_loop_stops (env : Env) (w : World) (stream : loc) :
  songs (player w) = [] ->
  loop (_options (player w)) = false ->
  _currentSongStream (player w) = Some stream ->
  let w' := snd (Player.on_end env w) in
  fst (Player.on_end env w) = Normal tt
  /\ _currentSongStream (player w') = None
  /\ readStreams w' = alter rs_destroy stream (readStreams w)
  /\ Forall (fun sink => ended <$> passThroughs w' !! sink
                         = (fun _ => true) <$> passThroughs w !! sink)
            (Map_values (sinks (player w)))
  /\ sinks (player w') = []
  /\ playing (player w') = false
  /\ songs (player w') = []
  /\ suspended w' = suspended w
  /\ pipes w' = pipes w.
Proof.
  intros Hq Hloop Hs w'. subst w'.
  destruct (on_end_exhausted env w stream Hq Hloop Hs)
    as (Hok & (Hnull & Hrs & Hreg & Hheap & Hoff & Hpipes & Hsus) & Hq' & _).
  repeat split; try done.
  rewrite Hheap. apply call_each_end_ended.
Qed.

Lemma exhausted_queue_without_loop_stops_witness :
  let w' := snd (Player.on_end demo_env demo_last_track) in
  fst (Player.on_end demo_env demo_last_track) = Normal tt
  /\ _currentSongStream (player w') = None
  /\ readStreams w' = alter rs_destroy 1%nat (readStreams demo_last_track)
  /\ Forall (fun sink => ended <$> passThroughs w' !! sink
                         = (fun _ => true) <$> passThroughs demo_last_track !! sink)
            (Map_values (sinks (player demo_last_track)))
  /\ sinks (player w') = []
  /\ playing (player w') = false
  /\ songs (player w') = []
  /\ suspended w' = suspended demo_last_track
  /\ pipes w' = pipes demo_last_track.
Proof.
  apply (exhausted_queue_without_loop_stops demo_env demo_last_track 1%nat).
  - vm_compute. reflexivity.
  - vm_compute. reflexivity.
  - vm_compute. reflexivity.
Defined.

Example demo_last_track_end :
  let w' := run demo_env [End] demo_last_track in
  playing (player demo_last_track) = true
  /\ passThroughs demo_last_track = [mkPassThrough [chunk1; chunk2] false false]
  /\ passThroughs w' = [mkPassThrough [chunk1; chunk2] true false]
  /\ readStreams w' = [mkReadStream "./audio/a.mp3" false;
                       mkReadStream "./audio/b.mp3" true]
  /\ console w' = console demo_last_track ++ [LogNoMoreSongs; LogStopped].
Proof. vm_compute. repeat split. Qed.

(* ===================================================================== *)
(** ** Broadcasting *)
(* ===================================================================== *)

Lemma broadcastChunk_run chunk w :
  Player.broadcastChunk chunk w
  = (Normal tt,
     on_passThroughs (call_each (write chunk) (Map_values (sinks (player w)))) w).
Proof.
  unfold Player.broadcastChunk. unfold_monad. apply for_of_sink_call.
Qed.

Lemma write_all_live chunks s :
  write_fails s = false ->
  write_all chunks s = mkPassThrough (received s ++ chunks) (ended s) (destroyed s).
Proof.
  revert s. induction chunks as [|c chunks IH]; intros s Hs.
  - cbn. rewrite app_nil_r. by destruct s.
  - assert (Hw : write c s
                 = mkPassThrough (received s ++ [c]) (ended s) (destroyed s)).
    { unfold write_fails in Hs. apply orb_false_elim in Hs as [He Hd].
      unfold write. by rewrite He, Hd. }
    unfold write_all in *. cbn [fold_left]. rewrite Hw, IH by done.
    cbn. by rewrite <- app_assoc.
Qed.

Lemma broadcast_all_cons c chunks ls h :
  broadcast_all (c :: chunks) ls h
  = broadcast_all chunks ls (call_each (write c) ls h).
Proof. reflexivity. Qed.

Lemma broadcast_all_once chunks ls h l :
  NoDup ls -> l ∈ ls -> broadcast_all chunks ls h !! l = write_all chunks <$> h !! l.
Proof.
  intros Hnd Hl. revert h. induction chunks as [|c chunks IH]; intros h.
  - cbn. by destruct (h !! l).
  - rewrite broadcast_all_cons, IH, call_each_once by done.
    by destruct (h !! l).
Qed.

Lemma broadcast_all_notin chunks ls h l :
  l ∉ ls -> broadcast_all chunks ls h !! l = h !! l.
Proof.
  intros Hl. revert h. induction chunks as [|c chunks IH]; intros h; [done|].
  by rewrite broadcast_all_cons, IH, call_each_notin.
Qed.

Lemma run_app env es1 es2 w : run env (es1 ++ es2) w = run env es2 (run env es1 w).
Proof. apply fold_left_app. Qed.

Lemma run_data env chunks w :
  run env (map Data chunks) w
  = on_passThroughs (broadcast_all chunks (Map_values (sinks (player w)))) w.
Proof.
  revert w. induction chunks as [|c chunks IH]; intros w.
  - by destruct w.
  - change (run env (map Data (c :: chunks)) w)
      with (run env (map Data chunks) (snd (Player.broadcastChunk c w))).
    rewrite broadcastChunk_run, IH. by destruct w.
Qed.

Lemma live_registry_NoDup w :
  live_registry w = true -> NoDup (Map_values (sinks (player w))).
Proof.
  unfold live_registry. intros [H _]%andb_prop. by apply bool_decide_eq_true in H.
Qed.

Lemma live_registry_live w sink :
  live_registry w = true -> sink ∈ Map_values (sinks (player w)) ->
  exists s, passThroughs w !! sink = Some s /\ write_fails s = false.
Proof.
  unfold live_registry. intros [_ H]%andb_prop Hin.
  rewrite forallb_forall in H. apply list_elem_of_In in Hin.
  specialize (H _ Hin). unfold live in H.
  destruct (passThroughs w !! sink) as [s|]; [|done].
  exists s. split; [done|]. by destruct (write_fails s).
Qed.

Example demo_playing_live : live_registry demo_playing = true.
Proof. vm_compute. reflexivity. Qed.

(* ===================================================================== *)
(** ** Graceful stop *)
(* ===================================================================== *)

Lemma run_stop_true env w :
  playing (player w) = true ->
  run env [Stop true] w
  = on_console (fun c => c ++ [LogWillStop])
      (on_player (set_playing false) (on_player (set_songs []) w)).
Proof.
  intros Hon. cbn [run fold_left handle].
  by rewrite WebRadio_stop_playing, Player_stop_true.
Qed.

Lemma on_end_not_playing env w stream :
  playing (player w) = false ->
  _currentSongStream (player w) = Some stream ->
  fst (Player.on_end env w) = Normal tt
  /\ torn_down w (snd (Player.on_end env w)) stream
  /\ songs (player (snd (Player.on_end env w))) = songs (player w)
  /\ currentSong (player (snd (Player.on_end env w))) = currentSong (player w).
Proof.
  intros Hoff Hs. unfold Player.on_end, Player.end_all_sinks.
  unfold_monad. rewrite Hoff. fields.
  rewrite Hs, for_of_sink_call. unfold torn_down. fields. done.
Qed.

(** C3.  [stop(true)] is called while Playing, with the chunks [chunks]
    of the current track still to come from the Pacer, and the registry
    live (as it is in every world a radio reaches).
    - Every one of them is then written to every registered sink.
    - As long as the Pacer has not completed (after any number [n] of
      them), the registry is intact, no registered sink has been ended,
      and the byte source is still current and open.
    - When the Pacer completes, every registered sink is ended and the
      registry is cleared.
    - No new track starts: the byte source is destroyed and forgotten,
      no stream is opened, no pipe is set up, no [playNextSong] is
      pending, and the queue is empty. *)
Theorem graceful_stop_finishes_current_track
    (env : Env) (w : World) (stream : loc) (chunks : list Buffer) :
  playing (player w) = true ->
  _currentSongStream (player w) = Some stream ->
  live_registry w = true ->
  let registered := Map_values (sinks (player w)) in
  let stopping := run env [Stop true] w in
  let after n := run env (map Data (take n chunks)) stopping in
  let finished := run env [End] (after (length chunks)) in
  Forall (fun sink =>
            passThroughs (after (length chunks)) !! sink
            = (fun s => mkPassThrough (received s ++ chunks) false false)
                <$> passThroughs w !! sink) registered
  /\ (forall n,
        sinks (player (after n)) = sinks (player w)
        /\ Forall (fun sink => ended <$> passThroughs (after n) !! sink = Some false)
                  registered
        /\ _currentSongStream (player (after n)) = Some stream
        /\ readStreams (after n) = readStreams w)
  /\ Forall (fun sink => ended <$> passThroughs finished !! sink = Some true)
            registered
  /\ sinks (player finished) = []
  /\ _currentSongStream (player finished) = None
  /\ readStreams finished = alter rs_destroy stream (readStreams w)
  /\ length (readStreams finished) = length (readStreams w)
  /\ pipes finished = pipes w
  /\ suspended finished = suspended w
  /\ songs (player finished) = []
  /\ currentSong (player finished) = currentSong (player w)
  /\ playing (player finished) = false.
Proof.
  intros Hon Hs Hlive registered stopping after finished.
  pose proof (live_registry_NoDup w Hlive) as Hnd.
  assert (Hafter : forall n,
             after n = on_passThroughs
                         (broadcast_all (take n chunks) registered) stopping).
  { intros n. unfold after. rewrite run_data. unfold stopping.
    by rewrite run_stop_true. }
  assert (Hsink : forall n sink, sink ∈ registered ->
             exists s, passThroughs w !! sink = Some s
                       /\ write_fails s = false
                       /\ passThroughs (after n) !! sink
                          = Some (mkPassThrough (received s ++ take n chunks)
                                    (ended s) (destroyed s))).
  { intros n sink Hin.
    destruct (live_registry_live w sink Hlive Hin) as (s & Hget & Hok).
    exists s. split; [done|]. split; [done|].
    rewrite Hafter. unfold stopping. rewrite run_stop_true by done. fields.
    rewrite broadcast_all_once, Hget by done. cbn.
    by rewrite write_all_live. }
  assert (Hflags : forall s, write_fails s = false ->
             ended s = false /\ destroyed s = false).
  { intros s. unfold write_fails. by destruct (ended s), (destroyed s). }
  assert (Hfield : forall n,
             playing (player (after n)) = false
             /\ _currentSongStream (player (after n)) = Some stream
             /\ sinks (player (after n)) = sinks (player w)
             /\ readStreams (after n) = readStreams w
             /\ pipes (after n) = pipes w
             /\ suspended (after n) = suspended w
             /\ songs (player (after n)) = []
             /\ currentSong (player (after n)) = currentSong (player w)).
  { intros n. rewrite Hafter. unfold stopping. rewrite run_stop_true by done.
    fields. done. }
  destruct (Hfield (length chunks))
    as (Hoff & Hcur & Hreg & Hrs & Hpipes & Hsusp & Hq & Hcs).
  destruct (on_end_not_playing env (after (length chunks)) stream Hoff Hcur)
    as (_ & (Hnull & Hrs' & Hreg' & Hheap' & Hoff' & Hpipes' & Hsusp') & Hq' & Hcs').
  change (snd (Player.on_end env (after (length chunks)))) with finished in *.
  split; [|split; [|split]].
  - apply Forall_forall. intros sink Hin.
    destruct (Hsink (length chunks) sink Hin) as (s & Hget & Hok & Hgot).
    destruct (Hflags s Hok) as [He Hd].
    rewrite Hgot, Hget, firstn_all, He, Hd. reflexivity.
  - intros n. destruct (Hfield n) as (_ & Hcur_n & Hreg_n & Hrs_n & _).
    repeat split; try done.
    apply Forall_forall. intros sink Hin.
    destruct (Hsink n sink Hin) as (s & Hget & Hok & Hgot).
    destruct (Hflags s Hok) as [He Hd].
    rewrite Hgot. cbn. by rewrite He.
  - apply Forall_forall. intros sink Hin.
    rewrite Hheap', Hreg.
    rewrite call_each_idem by (done || by intros []).
    destruct (Hsink (length chunks) sink Hin) as (s & _ & _ & Hgot).
    by rewrite Hgot.
  - rewrite Hrs', Hrs, Hpipes', Hpipes, Hsusp', Hsusp, Hq', Hq, Hcs', Hcs.
    repeat split; try done. by rewrite length_alter.
Qed.

Lemma graceful_stop_finishes_current_track_witness :
  let stopping := run demo_env [Stop true] demo_playing in
  let drained := run demo_env (map Data [chunk2; chunk3]) stopping in
  let finished := run demo_env [End] drained in
  Forall (fun sink =>
            passThroughs drained !! sink
            = (fun s => mkPassThrough (received s ++ [chunk2; chunk3]) false false)
                <$> passThroughs demo_playing !! sink)
         (Map_values (sinks (player demo_playing)))
  /\ sinks (player finished) = [].
Proof.
  pose proof (graceful_stop_finishes_current_track
                demo_env demo_playing 0%nat [chunk2; chunk3]) as H.
  cbv zeta in H.
  destruct H as (Hall & _ & _ & Hclear & _).
  - vm_compute. reflexivity.
  - vm_compute. reflexivity.
  - vm_compute. reflexivity.
  - split; [exact Hall | exact Hclear].
Defined.

Example graceful_stop_demo :
  let stopping := run demo_env [Stop true] demo_playing in
  let finished := run demo_env [Data chunk2; Data chunk3; End] stopping in
  passThroughs stopping = [mkPassThrough [chunk1] false false]
  /\ passThroughs finished = [mkPassThrough [chunk1; chunk2; chunk3] true false]
  /\ readStreams finished = [mkReadStream "./audio/a.mp3" true]
  /\ songs (player stopping) = []
  /\ console finished = console demo_playing ++ [LogWillStop; LogStopped].
Proof. vm_compute. repeat split. Qed.

(* ===================================================================== *)
(** ** Listeners *)
(* ===================================================================== *)

Lemma Map_values_set_NoDup {V} (k : string) (v : V) (m : Map V) :
  NoDup (Map_values m) -> v ∉ Map_values m -> NoDup (Map_values (Map_set k v m)).
Proof.
  induction m as [|[k' v'] m IH]; simpl; intros Hnd Hv.
  - apply NoDup_singleton.
  - apply NoDup_cons in Hnd as [Hv' Hnd].
    apply not_elem_of_cons in Hv as [Hne Hv].
    destruct (String.eqb k k'); simpl; apply NoDup_cons; split; try done.
    + intros [->|Hin]%Map_values_set; contradiction.
    + by apply IH.
Qed.

Lemma connect_online id w :
  playing (player w) = true \/ _currentSongStream (player w) <> None ->
  WebRadio.connect id w
  = (Normal (WebRadio.Streaming id (length (passThroughs w))),
     on_player (fun p => set_sinks (Map_set id (length (passThroughs w)) (sinks p)) p)
       (on_passThroughs (fun h => h ++ [new_PassThrough])
          (on_console (fun c => c ++ [LogSinkCreated id]) w))).
Proof.
  intros Honline.
  unfold WebRadio.connect, Player.createResponseSink, alloc_PassThrough.
  unfold_monad. fields.
  assert (negb (playing (player w))
          && bool_decide (_currentSongStream (player w) = None) = false) as ->.
  { destruct Honline as [-> | Hs]; [done|].
    rewrite bool_decide_false by done. apply andb_false_r. }
  reflexivity.
Qed.

Lemma connect_offline id w :
  playing (player w) = false -> _currentSongStream (player w) = None ->
  WebRadio.connect id w
  = (Normal WebRadio.ServiceUnavailable, on_console (fun c => c ++ [LogOffline]) w).
Proof.
  intros Hoff Hs. unfold WebRadio.connect. unfold_monad.
  rewrite Hoff, Hs. reflexivity.
Qed.

(** C9.  Between an accepted [stop(true)] and the end of the current
    track the radio is still online for its public interface:
    - [connect()] does not answer 503; it registers a new sink under the
      request's identifier;
    - that sink then receives each remaining chunk of the current track,
      and is ended when the track ends;
    - [start()] throws the already-playing error and changes nothing. *)
Theorem listener_joins_during_graceful_stop
    (env : Env) (w : World) (stream : loc) (id : string) (chunks : list Buffer) :
  playing (player w) = true ->
  _currentSongStream (player w) = Some stream ->
  live_registry w = true ->
  let stopping := run env [Stop true] w in
  let responseSink := length (passThroughs w) in
  let joined := snd (WebRadio.connect id stopping) in
  let drained := run env (map Data chunks) joined in
  let finished := run env [End] drained in
  fst (WebRadio.connect id stopping) = Normal (WebRadio.Streaming id responseSink)
  /\ Map_get id (sinks (player joined)) = Some responseSink
  /\ passThroughs joined !! responseSink = Some new_PassThrough
  /\ passThroughs drained !! responseSink = Some (mkPassThrough chunks false false)
  /\ passThroughs finished !! responseSink = Some (mkPassThrough chunks true false)
  /\ WebRadio.start env stopping = (Throw AlreadyPlaying, stopping)
  /\ WebRadio.start env joined = (Throw AlreadyPlaying, joined).
Proof.
  intros Hon Hs Hlive stopping responseSink joined drained finished.
  assert (Hstopping : stopping
                      = on_console (fun c => c ++ [LogWillStop])
                          (on_player (set_playing false)
                             (on_player (set_songs []) w)))
    by (unfold stopping; by rewrite run_stop_true).
  assert (Hconnect : WebRadio.connect id stopping
            = (Normal (WebRadio.Streaming id responseSink),
               on_player (fun p => set_sinks (Map_set id responseSink (sinks p)) p)
                 (on_passThroughs (fun h => h ++ [new_PassThrough])
                    (on_console (fun c => c ++ [LogSinkCreated id]) stopping)))).
  { rewrite connect_online; [by rewrite Hstopping|].
    right. rewrite Hstopping. fields. by rewrite Hs. }
  assert (Hjoined : joined
            = on_player (fun p => set_sinks (Map_set id responseSink (sinks p)) p)
                (on_passThroughs (fun h => h ++ [new_PassThrough])
                   (on_console (fun c => c ++ [LogSinkCreated id]) stopping)))
    by (unfold joined; by rewrite Hconnect).
  set (registered := Map_set id responseSink (sinks (player w))).
  assert (Hfresh : responseSink ∉ Map_values (sinks (player w))).
  { intros Hin. destruct (live_registry_live w _ Hlive Hin) as (s & Hget & _).
    apply lookup_lt_Some in Hget. unfold responseSink in Hget. lia. }
  assert (Hnd : NoDup (Map_values registered))
    by (apply Map_values_set_NoDup; [by apply live_registry_NoDup | done]).
  assert (Hin : responseSink ∈ Map_values registered)
    by (eapply Map_get_values, Map_get_set_eq).
  assert (Hnew : (passThroughs w ++ [new_PassThrough]) !! responseSink
                 = Some new_PassThrough)
    by apply list_lookup_middle, eq_refl.
  assert (Hdrained : drained
            = on_passThroughs (broadcast_all chunks (Map_values registered)) joined).
  { unfold drained. rewrite run_data. f_equal.
    rewrite Hjoined, Hstopping. reflexivity. }
  assert (Hgot : passThroughs drained !! responseSink
                 = Some (mkPassThrough chunks false false)).
  { rewrite Hdrained, Hjoined, Hstopping. fields.
    rewrite broadcast_all_once, Hnew by done. cbn.
    by rewrite write_all_live. }
  assert (Hoff : playing (player drained) = false)
    by (rewrite Hdrained, Hjoined, Hstopping; reflexivity).
  assert (Hcur : _currentSongStream (player drained) = Some stream)
    by (rewrite Hdrained, Hjoined, Hstopping; fields; done).
  assert (Hreg : sinks (player drained) = registered)
    by (rewrite Hdrained, Hjoined, Hstopping; reflexivity).
  destruct (on_end_not_playing env drained stream Hoff Hcur)
    as (_ & (_ & _ & _ & Hheap & _) & _).
  change (snd (Player.on_end env drained)) with finished in Hheap.
  repeat split.
  - by rewrite Hconnect.
  - rewrite Hjoined, Hstopping. fields. apply Map_get_set_eq.
  - rewrite Hjoined, Hstopping. fields. exact Hnew.
  - exact Hgot.
  - rewrite Hheap, Hreg. rewrite call_each_idem by (done || by intros []).
    by rewrite Hgot.
  - apply WebRadio_start_active. rewrite Hstopping. fields. by rewrite Hs.
  - apply WebRadio_start_active. rewrite Hjoined, Hstopping. fields. by rewrite Hs.
Qed.

Lemma listener_joins_during_graceful_stop_witness :
  let stopping := run demo_env [Stop true] demo_playing in
  let responseSink := length (passThroughs demo_playing) in
  let joined := snd (WebRadio.connect "bb" stopping) in
  let drained := run demo_env (map Data [chunk2; chunk3]) joined in
  let finished := run demo_env [End] drained in
  fst (WebRadio.connect "bb" stopping) = Normal (WebRadio.Streaming "bb" responseSink)
  /\ passThroughs finished !! responseSink
     = Some (mkPassThrough [chunk2; chunk3] true false)
  /\ WebRadio.start demo_env stopping = (Throw AlreadyPlaying, stopping).
Proof.
  pose proof (listener_joins_during_graceful_stop
                demo_env demo_playing 0%nat "bb" [chunk2; chunk3]) as H.
  cbv zeta in *.
  destruct H as (Hconnect & _ & _ & _ & Hgot & Hstart & _).
  - vm_compute. reflexivity.
  - vm_compute. reflexivity.
  - vm_compute. reflexivity.
  - split; [exact Hconnect | split; [exact Hgot | exact Hstart]].
Defined.

Example listener_joins_demo :
  let joined := run demo_env [Stop true; Connect "bb"] demo_playing in
  let finished := run demo_env [Data chunk2; Data chunk3; End] joined in
  sinks (player joined) = [("aa", 0%nat); ("bb", 1%nat)]
  /\ passThroughs finished
     = [mkPassThrough [chunk1; chunk2; chunk3] true false;
        mkPassThrough [chunk2; chunk3] true false].
Proof. vm_compute. repeat split. Qed.

Example offline_connect_demo :
  fst (WebRadio.connect "bb" demo_radio) = Normal WebRadio.ServiceUnavailable
  /\ fst (WebRadio.connect "bb"
            (run demo_env [Stop true; Data chunk2; End] demo_playing))
     = Normal WebRadio.ServiceUnavailable.
Proof. vm_compute. repeat split. Qed.

(* ===================================================================== *)
(** ** [parseInt] on integers *)
(* ===================================================================== *)

Ltac each_digit u IH :=
  induction u as [|u IH|u IH|u IH|u IH|u IH|u IH|u IH|u IH|u IH|u IH].

Lemma parse_digits_uint u acc :
  parse_digits 10 (chars_of_uint u) (Some acc) = Some (uint_value u acc).
Proof.
  revert acc. unfold chars_of_uint.
  each_digit u IH; intros acc; [reflexivity|..];
    cbn [NilEmpty.string_of_uint String.list_ascii_of_string parse_digits];
    (change (digit_value 10 _) with (Some 0%Z)
     || change (digit_value 10 _) with (Some 1%Z)
     || change (digit_value 10 _) with (Some 2%Z)
     || change (digit_value 10 _) with (Some 3%Z)
     || change (digit_value 10 _) with (Some 4%Z)
     || change (digit_value 10 _) with (Some 5%Z)
     || change (digit_value 10 _) with (Some 6%Z)
     || change (digit_value 10 _) with (Some 7%Z)
     || change (digit_value 10 _) with (Some 8%Z)
     || change (digit_value 10 _) with (Some 9%Z));
    cbn [default from_option id]; apply IH.
Qed.

Lemma uint_value_pos u p :
  uint_value u (Z.pos p) = Z.pos (Pos.of_uint_acc u p).
Proof.
  revert p.
  each_digit u IH; intros p; cbn [uint_value Pos.of_uint_acc]; [reflexivity|..];
    rewrite <- IH; f_equal; lia.
Qed.

Lemma uint_value_0 u : uint_value u 0 = Z.of_N (Pos.of_uint u).
Proof.
  each_digit u IH; cbn [uint_value Pos.of_uint]; [reflexivity | exact IH | ..];
    cbn [Z.mul Z.add]; apply uint_value_pos.
Qed.

Lemma trim_start_uint u : trim_start (chars_of_uint u) = chars_of_uint u.
Proof. destruct u; reflexivity. Qed.

Lemma strip_sign_uint u : strip_sign (chars_of_uint u) = (false, chars_of_uint u).
Proof. destruct u; reflexivity. Qed.

Lemma strip_prefix_uint u : strip_prefix (chars_of_uint u) = (10, chars_of_uint u).
Proof. destruct u as [|u|u|u|u|u|u|u|u|u|u]; try reflexivity; destruct u; reflexivity. Qed.

Lemma parse_digits_uint_start u :
  u <> Decimal.Nil ->
  parse_digits 10 (chars_of_uint u) None = Some (uint_value u 0).
Proof.
  intros Hu. destruct u; [done|..];
    unfold chars_of_uint;
    cbn [NilEmpty.string_of_uint String.list_ascii_of_string parse_digits];
    apply (parse_digits_uint u).
Qed.

Lemma parseInt_chars_uint u :
  u <> Decimal.Nil -> parseInt_chars (chars_of_uint u) = Int (uint_value u 0).
Proof.
  intros Hu. unfold parseInt_chars.
  rewrite trim_start_uint, strip_sign_uint, strip_prefix_uint.
  rewrite parse_digits_uint_start by done.
  by destruct (uint_value u 0).
Qed.

(** A positive integer below [10^21] prints as its decimal digits and
    parses back to itself. *)
Lemma parseInt_positive_integer z :
  0 < z < 10 ^ 21 -> parseInt (VNum (Int z)) = Int z.
Proof.
  intros [Hpos Hlt]. destruct z as [|p|p]; try lia.
  unfold parseInt. cbn [to_string string_of_number].
  assert ((Z.pos p <? 0) = false) as -> by (apply Z.ltb_ge; lia).
  unfold string_of_nonneg.
  assert ((Z.pos p <? 10 ^ 21) = true) as -> by (by apply Z.ltb_lt).
  unfold digits_of_Z. cbn [Z.to_int NilZero.string_of_int].
  pose proof (DecimalPos.Unsigned.to_uint_nonnil p) as Hnil.
  assert (NilZero.string_of_uint (Pos.to_uint p)
          = NilEmpty.string_of_uint (Pos.to_uint p)) as ->
    by (by destruct (Pos.to_uint p)).
  fold (chars_of_uint (Pos.to_uint p)).
  rewrite parseInt_chars_uint by done.
  by rewrite uint_value_0, DecimalPos.Unsigned.of_to.
Qed.

(* ===================================================================== *)
(** ** The bitrate resolver *)
(* ===================================================================== *)

Lemma getBitRate_run song probe w :
  Player.getBitRate song probe w
  = if truthy (bitrate (_options (player w)))
    then (Normal (parseInt (bitrate (_options (player w)))), w)
    else match probed_bit_rate probe with
         | Normal bitRate => (Normal (parseInt bitRate), w)
         | Throw _ =>
             (Normal (Int 128000),
              on_console (fun c => c ++ [LogBitrateFallback song]) w)
         end.
Proof.
  unfold Player.getBitRate, probed_bit_rate. unfold_monad.
  destruct (truthy (bitrate (_options (player w)))); [reflexivity|].
  destruct probe as [r|]; [|reflexivity].
  destruct (get_prop r "streams") as [streams|]; [|reflexivity].
  destruct (get_index0 streams) as [stream0|]; [|reflexivity].
  destruct (get_prop stream0 "bit_rate"); reflexivity.
Qed.

(** [getBitRate] never throws. *)
Lemma getBitRate_never_throws song probe w :
  exists bitRate w', Player.getBitRate song probe w = (Normal bitRate, w').
Proof.
  rewrite getBitRate_run.
  destruct (truthy _); [eauto|]. destruct (probed_bit_rate probe); eauto.
Qed.

(** A configured positive integer bitrate is returned whatever the probe
    would say, and nothing is logged. *)
Lemma getBitRate_fixed song probe w z :
  bitrate (_options (player w)) = VNum (Int z) ->
  0 < z < 10 ^ 21 ->
  Player.getBitRate song probe w = (Normal (Int z), w).
Proof.
  intros Hb Hz. rewrite getBitRate_run, Hb.
  assert (truthy (VNum (Int z)) = true) as -> by (destruct z; done || lia).
  by rewrite parseInt_positive_integer.
Qed.

(** With no bitrate configured, a probe that throws (the tool fails, the
    result has no [streams], [streams] is empty) yields the fallback. *)
Lemma getBitRate_probe_throws song probe w e :
  truthy (bitrate (_options (player w))) = false ->
  probed_bit_rate probe = Throw e ->
  Player.getBitRate song probe w
  = (Normal (Int 128000), on_console (fun c => c ++ [LogBitrateFallback song]) w).
Proof. intros Hb Hp. by rewrite getBitRate_run, Hb, Hp. Qed.

Example probe_failures_that_throw :
  probed_bit_rate Rejected = Throw ProbeError
  /\ probed_bit_rate (Resolved VUndefined) = Throw TypeError
  /\ probed_bit_rate (Resolved (VObj [])) = Throw TypeError
  /\ probed_bit_rate (Resolved (VObj [("streams", VArr [])])) = Throw TypeError.
Proof. repeat split. Qed.

(** With no bitrate configured, a probe that resolves with a first
    stream lacking [bit_rate] does not throw: [parseInt(undefined)] is
    returned, the [catch] block is not entered and nothing is logged. *)
Lemma getBitRate_without_bit_rate song w rest stream0 others :
  truthy (bitrate (_options (player w))) = false ->
  assoc "bit_rate" stream0 = None ->
  Player.getBitRate song
    (Resolved (VObj (("streams", VArr (VObj stream0 :: others)) :: rest))) w
  = (Normal NaN, w).
Proof.
  intros Hb Hmissing. rewrite getBitRate_run, Hb.
  cbn. by rewrite Hmissing.
Qed.

(** C2, at a probe result whose first stream has no [bit_rate]: with no
    bitrate configured [getBitRate] returns [NaN], not [128000]; the
    [catch] block does not run and nothing is logged. *)
Theorem getBitRate_missing_bit_rate_is_NaN :
  truthy (bitrate (_options (player demo_radio))) = false
  /\ probed_bit_rate probe_without_bit_rate = Normal VUndefined
  /\ Player.getBitRate "./audio/a.mp3" probe_without_bit_rate demo_radio
     = (Normal NaN, demo_radio)
  /\ Player.getBitRate "./audio/a.mp3" Rejected demo_radio
     = (Normal (Int 128000),
        on_console (fun c => c ++ [LogBitrateFallback "./audio/a.mp3"]) demo_radio).
Proof. vm_compute. repeat split. Qed.

(** The NaN reaches the Pacer: the track is piped through
    [new Throttle(NaN / 8)]. *)
Example missing_bit_rate_paces_at_NaN :
  pipes (run demo_env [Start; Resume 0 probe_without_bit_rate] demo_radio)
  = [(0%nat, NaN)].
Proof. vm_compute. reflexivity. Qed.

(* ===================================================================== *)
(** ** The track catalog *)
(* ===================================================================== *)

Lemma readSongs_unshuffled env w entries :
  readdirSync env (audioDirectory (_options (player w))) = Some entries ->
  shuffle (_options (player w)) = false ->
  Player.readSongs env w = (Normal (mp3_names entries), w).
Proof.
  intros Hdir Hsh. unfold Player.readSongs. unfold_monad.
  rewrite Hdir, Hsh. reflexivity.
Qed.

Lemma readSongs_shuffled env w entries :
  readdirSync env (audioDirectory (_options (player w))) = Some entries ->
  shuffle (_options (player w)) = true ->
  Player.readSongs env w
  = (Normal (Player.shuffle_from env (randomCalls w)
               (length (mp3_names entries) - 1) (mp3_names entries)),
     on_randomCalls (fun n => (n + (length (mp3_names entries) - 1))%nat) w).
Proof.
  intros Hdir Hsh. unfold Player.readSongs. unfold_monad.
  rewrite Hdir, Hsh. reflexivity.
Qed.

Lemma readSongs_unreadable env w :
  readdirSync env (audioDirectory (_options (player w))) = None ->
  Player.readSongs env w = (Throw ReaddirError, w).
Proof.
  intros Hdir. unfold Player.readSongs. unfold_monad. by rewrite Hdir.
Qed.

(** Distinct entry names give distinct tracks. *)
Lemma mp3_names_NoDup entries :
  NoDup (map name entries) -> NoDup (mp3_names entries).
Proof.
  unfold mp3_names. induction entries as [|d entries IH]; simpl; [done|].
  intros [Hd Hnd]%NoDup_cons.
  destruct (String.eqb (extname (name d)) ".mp3"); simpl; [|by apply IH].
  apply NoDup_cons. split; [|by apply IH].
  intros Hin. apply Hd.
  apply list_elem_of_fmap in Hin as (d' & -> & Hd').
  apply list_elem_of_fmap. exists d'. split; [done|].
  apply list_elem_of_In in Hd'. apply filter_In in Hd' as [Hd' _].
  by apply list_elem_of_In.
Qed.

(** Exchanging two elements of an array permutes it. *)
Lemma insert_head_Permutation {A} (l : list A) (j : nat) (x y : A) :
  l !! j = Some y -> y :: <[j := x]> l ≡ₚ x :: l.
Proof.
  revert j. induction l as [|z l IH]; intros [|j] Hj; simplify_eq/=.
  - apply perm_swap.
  - rewrite (perm_swap z y), (IH j Hj). apply perm_swap.
Qed.

Lemma swap_Permutation (l : list string) (i j : nat) : Player.swap l i j ≡ₚ l.
Proof.
  unfold Player.swap.
  destruct (l !! j) as [sj|] eqn:Hj; [|done].
  destruct (l !! i) as [si|] eqn:Hi; [|done].
  revert i j Hi Hj. induction l as [|z l IH]; intros [|i] [|j] Hi Hj; simplify_eq/=.
  - done.
  - by apply insert_head_Permutation.
  - by apply insert_head_Permutation.
  - by rewrite IH.
Qed.

(** Whatever [Math.random] returns, the shuffle yields a permutation. *)
Lemma shuffle_from_Permutation env k i (l : list string) :
  Player.shuffle_from env k i l ≡ₚ l.
Proof.
  revert k l. induction i as [|i IH]; intros k l; simpl; [done|].
  by rewrite IH, swap_Permutation.
Qed.

Lemma readSongs_Permutation env w entries :
  readdirSync env (audioDirectory (_options (player w))) = Some entries ->
  exists l, fst (Player.readSongs env w) = Normal l /\ l ≡ₚ mp3_names entries.
Proof.
  intros Hdir. destruct (shuffle (_options (player w))) eqn:Hsh.
  - rewrite (readSongs_shuffled env w entries) by done.
    eexists. split; [reflexivity|]. apply shuffle_from_Permutation.
  - rewrite (readSongs_unshuffled env w entries) by done.
    by eexists.
Qed.

(** The index [Math.floor(Math.random() * (i + 1))] is at most [i]. *)
Lemma random_index_le env k i : (Player.random_index env k i <= i)%nat.
Proof.
  unfold Player.random_index.
  assert (H : (random env k mod 2 ^ 53 < 2 ^ 53)%N) by (by apply N.mod_lt).
  set (r := (random env k mod 2 ^ 53)%N) in *.
  assert ((r * N.of_nat (i + 1) / 2 ^ 53 < N.of_nat (i + 1))%N).
  { apply N.Div0.div_lt_upper_bound. nia. }
  lia.
Qed.

(** C5, at a directory holding a folder named [live-set.mp3]:
    [readSongs] lists the folder among the tracks. *)
Theorem readSongs_lists_a_folder :
  isFile (mkDirent "live-set.mp3" Directory) = false
  /\ Player.readSongs folder_env demo_radio
     = (Normal ["a.mp3"; "live-set.mp3"; "b.mp3"], demo_radio).
Proof. vm_compute. repeat split. Qed.

(** The folder is then opened as a track. *)
Example folder_is_played :
  readStreams (run folder_env [Start; Resume 0 Rejected; End] demo_radio)
  = [mkReadStream "./audio/a.mp3" false; mkReadStream "./audio/live-set.mp3" false].
Proof. vm_compute. reflexivity. Qed.

(* ===================================================================== *)
(** ** The registry stays live *)
(* ===================================================================== *)

Section Keeps.
Context (R : World -> World -> Prop) `{!Reflexive R, !Transitive R}.

Lemma keeps_ret {A} (a : A) : keeps R (mret a).
Proof. intros w. reflexivity. Qed.

Lemma keeps_throw {A} e : keeps R (throw e : M A).
Proof. intros w. reflexivity. Qed.

Lemma keeps_gets {A} (f : World -> A) : keeps R (gets f).
Proof. intros w. reflexivity. Qed.

Lemma keeps_eval {A} (c : completion A) : keeps R (eval c).
Proof. intros w. reflexivity. Qed.

Lemma keeps_modify f : (forall w, R w (f w)) -> keeps R (modify f).
Proof. intros Hf w. apply Hf. Qed.

Lemma keeps_bind {A B} (m : M A) (k : A -> M B) :
  keeps R m -> (forall a, keeps R (k a)) -> keeps R (m ≫= k).
Proof.
  intros Hm Hk w. unfold mbind, M_bind.
  pose proof (Hm w) as H1. destruct (m w) as [[a|e] w1]; [|exact H1].
  transitivity w1; [exact H1 | apply Hk].
Qed.

Lemma keeps_try_catch {A} (m : M A) (h : error -> M A) :
  keeps R m -> (forall e, keeps R (h e)) -> keeps R (try_catch m h).
Proof.
  intros Hm Hh w. unfold try_catch.
  pose proof (Hm w) as H1. destruct (m w) as [[a|e] w1]; [exact H1|].
  transitivity w1; [exact H1 | apply Hh].
Qed.

Lemma keeps_for_of {A} (xs : list A) (body : A -> M unit) :
  (forall x, keeps R (body x)) -> keeps R (for_of xs body).
Proof.
  intros Hb. induction xs as [|x xs IH]; simpl.
  - apply keeps_ret.
  - apply keeps_bind; [apply Hb | intros _; exact IH].
Qed.
End Keeps.

#[local] Instance registry_step_refl : Reflexive registry_step.
Proof. intros w. by left. Qed.

#[local] Instance registry_step_trans : Transitive registry_step.
Proof.
  intros w1 w2 w3 [[Hs Hh]|[Hc Hh]] [[Hs' Hh']|[Hc' Hh']].
  - left. split; congruence.
  - right. by rewrite Hc', Hh', Hs, Hh.
  - right. split; congruence.
  - right. by rewrite Hc', Hh', Hc.
Qed.

Ltac keeps_step :=
  first
    [ apply keeps_bind; [typeclasses eauto..| |intros ?]
    | apply keeps_ret; typeclasses eauto
    | apply keeps_throw; typeclasses eauto
    | apply keeps_gets; typeclasses eauto
    | apply keeps_eval; typeclasses eauto
    | apply keeps_try_catch; [typeclasses eauto..| |intros ?]
    | apply keeps_modify; intros ?; left; split; reflexivity
    | match goal with
      | |- keeps _ (match ?x with _ => _ end) => destruct x
      end ].

Lemma keeps_logFn m : keeps registry_step (logFn m).
Proof. unfold logFn. keeps_step. Qed.

Lemma keeps_end_all_sinks : keeps registry_step Player.end_all_sinks.
Proof. intros w. rewrite end_all_sinks_run. by right. Qed.

Lemma keeps_currentSongStream_destroy :
  keeps registry_step currentSongStream_destroy.
Proof. unfold currentSongStream_destroy. repeat keeps_step. Qed.

Lemma keeps_readSongs env : keeps registry_step (Player.readSongs env).
Proof. unfold Player.readSongs. repeat keeps_step. Qed.

Lemma keeps_createReadStream p : keeps registry_step (createReadStream p).
Proof. unfold createReadStream. repeat keeps_step. Qed.

Lemma keeps_getBitRate song probe :
  keeps registry_step (Player.getBitRate song probe).
Proof.
  unfold Player.getBitRate.
  repeat first [apply keeps_logFn | keeps_step].
Qed.

Lemma keeps_call_async m :
  keeps registry_step m -> keeps registry_step (call_async m).
Proof.
  intros Hm. unfold call_async.
  apply keeps_try_catch; [typeclasses eauto.. | done | intros e].
  keeps_step.
Qed.

Ltac keeps_auto :=
  repeat first
    [ apply keeps_logFn
    | apply keeps_end_all_sinks
    | apply keeps_currentSongStream_destroy
    | apply keeps_readSongs
    | apply keeps_createReadStream
    | apply keeps_getBitRate
    | apply keeps_call_async
    | keeps_step ].

Lemma keeps_playNextSong env : keeps registry_step (Player.playNextSong env).
Proof. unfold Player.playNextSong. keeps_auto. Qed.

Lemma keeps_playNextSong_resume i probe :
  keeps registry_step (Player.playNextSong_resume i probe).
Proof. unfold Player.playNextSong_resume. keeps_auto. Qed.

Lemma keeps_on_end env : keeps registry_step (Player.on_end env).
Proof.
  unfold Player.on_end. keeps_auto.
Qed.

Lemma keeps_WebRadio_start env : keeps registry_step (WebRadio.start env).
Proof.
  unfold WebRadio.start, Player.start. keeps_auto.
Qed.

Lemma keeps_WebRadio_stop g : keeps registry_step (WebRadio.stop g).
Proof. unfold WebRadio.stop, Player.stop. keeps_auto. Qed.

Lemma live_registry_spec w :
  live_registry w = true
  <-> NoDup (Map_values (sinks (player w)))
      /\ Forall (fun sink => live (passThroughs w) sink = true)
                (Map_values (sinks (player w))).
Proof.
  unfold live_registry. rewrite andb_true_iff, bool_decide_eq_true.
  rewrite forallb_forall, Forall_forall.
  split; intros [Hnd Hall]; (split; [done|]); intros l Hl; apply Hall.
  - by apply list_elem_of_In.
  - by apply list_elem_of_In.
Qed.

Lemma live_registry_step w w' :
  registry_step w w' -> live_registry w = true -> live_registry w' = true.
Proof.
  intros [[Hs Hh]|[Hc _]] Hlive.
  - unfold live_registry in *. by rewrite Hs, Hh.
  - unfold live_registry. by rewrite Hc.
Qed.

Lemma live_alloc h sink :
  live h sink = true -> live (h ++ [new_PassThrough]) sink = true.
Proof.
  unfold live. destruct (h !! sink) as [s|] eqn:Hs; [|done].
  by rewrite (lookup_app_l_Some _ _ _ _ Hs).
Qed.

Lemma live_lt h sink : live h sink = true -> (sink < length h)%nat.
Proof.
  unfold live. destruct (h !! sink) as [s|] eqn:Hs; [|done].
  intros _. by apply lookup_lt_Some in Hs.
Qed.

Lemma register_keeps_registry_live id f w :
  live_registry w = true ->
  live_registry
    (on_player (fun p => set_sinks (Map_set id (length (passThroughs w)) (sinks p)) p)
       (on_passThroughs (fun h => h ++ [new_PassThrough]) (on_console f w)))
  = true.
Proof.
  intros [Hnd Hall]%live_registry_spec. apply live_registry_spec. fields.
  rewrite Forall_forall in Hall.
  assert (Hfresh : length (passThroughs w) ∉ Map_values (sinks (player w))).
  { intros Hin. apply Hall, live_lt in Hin. lia. }
  split; [by apply Map_values_set_NoDup|].
  apply Forall_forall. intros l [->|Hl]%Map_values_set.
  - unfold live. by rewrite list_lookup_middle.
  - by apply live_alloc, Hall.
Qed.

Lemma connect_keeps_registry_live id w :
  live_registry w = true -> live_registry (snd (WebRadio.connect id w)) = true.
Proof.
  intros Hlive.
  destruct (playing (player w)) eqn:Hp.
  - rewrite connect_online by (by left). by apply register_keeps_registry_live.
  - destruct (_currentSongStream (player w)) eqn:Hs.
    + rewrite connect_online by (right; by rewrite Hs).
      by apply register_keeps_registry_live.
    + by rewrite connect_offline.
Qed.

Lemma Map_values_delete_NoDup {V} (k : string) (m : Map V) :
  NoDup (Map_values m) -> NoDup (Map_values (Map_delete k m)).
Proof.
  induction m as [|[k' v] m IH]; simpl; [done|].
  intros [Hv Hnd]%NoDup_cons.
  destruct (String.eqb k k'); simpl; [by apply IH|].
  apply NoDup_cons. split; [|by apply IH].
  intros Hin. by apply Map_values_delete in Hin.
Qed.

(** The sink found under a key is not the sink of any other key. *)
Lemma Map_get_not_in_delete {V} (k : string) (m : Map V) (v : V) :
  NoDup (Map_values m) -> Map_get k m = Some v -> v ∉ Map_values (Map_delete k m).
Proof.
  induction m as [|[k' v'] m IH]; simpl; [done|].
  intros [Hv Hnd]%NoDup_cons.
  destruct (String.eqb k k'); simpl.
  - intros [= ->] Hin. by apply Map_values_delete in Hin.
  - intros Hget [->|Hin]%elem_of_cons.
    + apply Hv. by eapply Map_get_values.
    + by apply (IH Hnd Hget).
Qed.

Lemma close_keeps_registry_live id w :
  live_registry w = true ->
  live_registry (snd (WebRadio.on_close id w)) = true.
Proof.
  intros [Hnd Hall]%live_registry_spec. apply live_registry_spec.
  unfold WebRadio.on_close.
  rewrite removeResponseSink_sinks, removeResponseSink_heap.
  split; [by apply Map_values_delete_NoDup|].
  rewrite Forall_forall in Hall. apply Forall_forall. intros l Hl.
  pose proof (Hall l (Map_values_delete _ _ _ Hl)) as Hlive.
  destruct (Map_get id (sinks (player w))) as [sink|] eqn:Hget; [|done].
  unfold live. rewrite list_lookup_alter_ne; [done|].
  intros ->. by apply (Map_get_not_in_delete id (sinks (player w)) l).
Qed.

Lemma data_keeps_registry_live chunk w :
  live_registry w = true ->
  live_registry (snd (Player.on_data chunk w)) = true.
Proof.
  intros [Hnd Hall]%live_registry_spec. apply live_registry_spec.
  unfold Player.on_data. rewrite broadcastChunk_run. fields.
  split; [done|].
  rewrite Forall_forall in Hall. apply Forall_forall. intros l Hl.
  specialize (Hall l Hl). unfold live in *.
  rewrite call_each_once by done.
  destruct (passThroughs w !! l) as [[r e d]|]; [|done].
  unfold write, write_fails in *. cbn in *. by destruct e, d.
Qed.

(** Every event leaves the registry live. *)
Lemma handle_keeps_registry_live env e w :
  live_registry w = true -> live_registry (snd (handle env e w)) = true.
Proof.
  intros Hlive. destruct e as [|g|id|id|i probe|chunk|]; cbn [handle].
  - eapply live_registry_step; [apply keeps_WebRadio_start | done].
  - eapply live_registry_step; [apply keeps_WebRadio_stop | done].
  - unfold mbind, M_bind, mret, M_ret.
    pose proof (connect_keeps_registry_live id w Hlive) as H.
    by destruct (WebRadio.connect id w) as [[r|e] w'].
  - by apply close_keeps_registry_live.
  - eapply live_registry_step; [|done].
    apply keeps_call_async, keeps_playNextSong_resume.
  - by apply data_keeps_registry_live.
  - eapply live_registry_step; [apply keeps_on_end | done].
Qed.

Lemma run_keeps_registry_live env es w :
  live_registry w = true -> live_registry (run env es w) = true.
Proof.
  revert w. induction es as [|e es IH]; intros w Hlive; [done|].
  apply IH. by apply handle_keeps_registry_live.
Qed.

Lemma constructor_registry env o w :
  WebRadio.constructor env o = Normal w -> sinks (player w) = [].
Proof.
  unfold WebRadio.constructor, Player.constructor.
  destruct (WebRadio.validate env _) as [opts|]; [|done].
  unfold mbind at 1, M_bind at 1.
  pose proof (keeps_readSongs env (Player.new opts)) as H1.
  destruct (Player.readSongs env (Player.new opts)) as [[l|] w1]; [|done].
  cbn [snd] in H1. unfold logFn, modify.
  pose proof (keeps_readSongs env
                (on_console (fun c => c ++ [LogFound (length l)]) w1)) as H2.
  destruct (Player.readSongs env _) as [[l'|] w2]; [|done].
  cbn [snd] in H2. destruct (length l' =? 0)%nat; [done|].
  intros [= <-].
  destruct H2 as [[Hs2 _]|[Hs2 _]]; [|done]. rewrite Hs2. fields.
  destruct H1 as [[Hs1 _]|[Hs1 _]]; by rewrite Hs1.
Qed.

(** X19.  The registry is live in every world a radio can reach from
    its construction through calls of its interface and callbacks: no
    sink is registered twice, and every registered sink is on the heap,
    neither ended nor destroyed. *)
Theorem reachable_registry_live env o w es :
  WebRadio.constructor env o = Normal w ->
  live_registry (run env es w) = true.
Proof.
  intros Hw. apply run_keeps_registry_live.
  unfold live_registry. by rewrite (constructor_registry env o w Hw).
Qed.


(* ===================================================================== *)
(** ** Construction *)
(* ===================================================================== *)

Lemma defaults_fields o :
  WebRadio.defaults o
  = WebRadio.mkRaw
      (if truthy (WebRadio.raw_audioDirectory o)
       then WebRadio.raw_audioDirectory o else VStr "./audio")
      (WebRadio.raw_bitrate o)
      (if WebRadio.is_undefined (WebRadio.raw_loop o)
       then VBool true else WebRadio.raw_loop o)
      (if WebRadio.is_undefined (WebRadio.raw_shuffle o)
       then VBool false else WebRadio.raw_shuffle o)
      (if truthy (WebRadio.raw_logFn o) then WebRadio.raw_logFn o else VFun).
Proof.
  unfold WebRadio.defaults. destruct o as [d b l s f]. cbn.
  destruct (truthy d); cbn;
    destruct (WebRadio.is_undefined l); cbn;
    destruct (WebRadio.is_undefined s); cbn;
    destruct (truthy f); reflexivity.
Qed.

Lemma defaults_idempotent o :
  WebRadio.defaults (WebRadio.defaults o) = WebRadio.defaults o.
Proof.
  rewrite (defaults_fields (WebRadio.defaults o)), (defaults_fields o).
  destruct o as [d b l s f].
  cbn [WebRadio.raw_audioDirectory WebRadio.raw_bitrate WebRadio.raw_loop
       WebRadio.raw_shuffle WebRadio.raw_logFn].
  f_equal.
  - destruct (truthy d) eqn:Hd; [by rewrite Hd | reflexivity].
  - destruct (WebRadio.is_undefined l) eqn:Hl; [reflexivity | by rewrite Hl].
  - destruct (WebRadio.is_undefined s) eqn:Hs; [reflexivity | by rewrite Hs].
  - destruct (truthy f) eqn:Hf; [by rewrite Hf | reflexivity].
Qed.

(** X1.  Passing the default values explicitly is the same as omitting
    the options: [new WebRadio(options)] throws the same error or builds
    the same radio as [new WebRadio] of the options with the defaults
    filled in, which are ["./audio"] for a falsy [audioDirectory],
    [true] for an undefined [loop], [false] for an undefined [shuffle]
    and a function for a falsy [logFn]. *)
Theorem constructor_fills_defaults (env : Env) (o : WebRadio.RawOptions) :
  WebRadio.constructor env (WebRadio.defaults o) = WebRadio.constructor env o
  /\ WebRadio.defaults o
     = WebRadio.mkRaw
         (if truthy (WebRadio.raw_audioDirectory o)
          then WebRadio.raw_audioDirectory o else VStr "./audio")
         (WebRadio.raw_bitrate o)
         (if WebRadio.is_undefined (WebRadio.raw_loop o)
          then VBool true else WebRadio.raw_loop o)
         (if WebRadio.is_undefined (WebRadio.raw_shuffle o)
          then VBool false else WebRadio.raw_shuffle o)
         (if truthy (WebRadio.raw_logFn o) then WebRadio.raw_logFn o else VFun).
Proof.
  split; [|apply defaults_fields].
  unfold WebRadio.constructor. by rewrite defaults_idempotent.
Qed.

Lemma validate_ok env o opts :
  WebRadio.validate env o = Normal opts ->
  WebRadio.raw_audioDirectory o = VStr (audioDirectory opts)
  /\ existsSync env (audioDirectory opts) = true
  /\ bitrate opts = WebRadio.raw_bitrate o
  /\ (truthy (bitrate opts) = false \/ typeof (bitrate opts) = TNumber)
  /\ WebRadio.raw_loop o = VBool (loop opts)
  /\ WebRadio.raw_shuffle o = VBool (shuffle opts)
  /\ typeof (WebRadio.raw_logFn o) = TFunction.
Proof.
  unfold WebRadio.validate. destruct o as [d b l s f]. cbn.
  destruct d as [| | | |dir| | |]; try done.
  destruct (existsSync env dir) eqn:Hdir; cbn; [|done].
  destruct (truthy b) eqn:Hb; cbn.
  - destruct (typeof b) eqn:Htb; cbn; try done.
    destruct l as [| |lb| | | | |]; try done.
    destruct s as [| |sb| | | | |]; try done.
    destruct (typeof f) eqn:Hf; cbn; try done.
    intros [= <-]. cbn. rewrite Htb. by repeat split; try right.
  - destruct l as [| |lb| | | | |]; try done.
    destruct s as [| |sb| | | | |]; try done.
    destruct (typeof f) eqn:Hf; cbn; try done.
    intros [= <-]. cbn. rewrite Hb. by repeat split; try left.
Qed.

Lemma readSongs_length env w entries l w' :
  readdirSync env (audioDirectory (_options (player w))) = Some entries ->
  Player.readSongs env w = (Normal l, w') ->
  length l = length (mp3_names entries)
  /\ l ≡ₚ mp3_names entries
  /\ player w' = player w /\ passThroughs w' = passThroughs w
  /\ readStreams w' = readStreams w /\ pipes w' = pipes w
  /\ suspended w' = suspended w /\ rejected w' = rejected w
  /\ console w' = console w.
Proof.
  intros Hdir. destruct (shuffle (_options (player w))) eqn:Hsh.
  - rewrite (readSongs_shuffled env w entries) by done. intros [= <- <-].
    pose proof (shuffle_from_Permutation env (randomCalls w)
                  (length (mp3_names entries) - 1) (mp3_names entries)) as Hp.
    split; [by rewrite Hp|]. by destruct w.
  - rewrite (readSongs_unshuffled env w entries) by done. by intros [= <- <-].
Qed.

Lemma Player_constructor_run env opts :
  Player.constructor env opts
  = match Player.readSongs env (Player.new opts) with
    | (Normal l, w1) =>
        (Normal tt, on_console (fun c => c ++ [LogFound (length l)]) w1)
    | (Throw e, w1) => (Throw e, w1)
    end.
Proof. reflexivity. Qed.

Lemma readSongs_readable env w entries :
  readdirSync env (audioDirectory (_options (player w))) = Some entries ->
  exists l w', Player.readSongs env w = (Normal l, w').
Proof.
  intros Hdir. destruct (shuffle (_options (player w))) eqn:Hsh.
  - rewrite (readSongs_shuffled env w entries) by done. eauto.
  - rewrite (readSongs_unshuffled env w entries) by done. eauto.
Qed.

Lemma constructor_run env o opts :
  WebRadio.validate env (WebRadio.defaults o) = Normal opts ->
  match readdirSync env (audioDirectory opts) with
  | None => WebRadio.constructor env o = Throw ReaddirError
  | Some entries =>
      if (length (mp3_names entries) =? 0)%nat
      then WebRadio.constructor env o = Throw NoMp3Files
      else exists w,
          WebRadio.constructor env o = Normal w
          /\ player w = mkPlayer opts None [] [] None false
          /\ passThroughs w = [] /\ readStreams w = [] /\ pipes w = []
          /\ suspended w = [] /\ rejected w = []
          /\ console w = [LogFound (length (mp3_names entries))]
  end.
Proof.
  intros Hv. unfold WebRadio.constructor. rewrite Hv, Player_constructor_run.
  destruct (readdirSync env (audioDirectory opts)) as [entries|] eqn:Hdir.
  - destruct (readSongs_readable env (Player.new opts) entries Hdir)
      as (l & w1 & H1).
    rewrite H1.
    destruct (readSongs_length env (Player.new opts) entries l w1 Hdir H1)
      as (Hlen & _ & Hp & Hh & Hrs & Hpi & Hsu & Hrj & Hco).
    set (w1' := on_console (fun c => c ++ [LogFound (length l)]) w1).
    assert (Hdir' : readdirSync env (audioDirectory (_options (player w1')))
                    = Some entries) by (subst w1'; fields; by rewrite Hp).
    destruct (readSongs_readable env w1' entries Hdir') as (l' & w2 & H2).
    rewrite H2.
    destruct (readSongs_length env w1' entries l' w2 Hdir' H2)
      as (Hlen' & _ & Hp' & Hh' & Hrs' & Hpi' & Hsu' & Hrj' & Hco').
    rewrite Hlen'. destruct (length (mp3_names entries) =? 0)%nat; [done|].
    exists w2. subst w1'. fields.
    rewrite Hp', Hh', Hrs', Hpi', Hsu', Hrj', Hco', Hp, Hh, Hrs, Hpi, Hsu, Hrj, Hco, Hlen.
    done.
  - by rewrite (readSongs_unreadable env (Player.new opts)).
Qed.

(** X2.  A radio that [new WebRadio(options)] has built is idle: no byte
    source, no sink, an empty queue, the [playing] flag off and nothing
    pending.  Its audio directory exists and lists at least one track,
    and its [bitrate] option is falsy or a number; the one message
    logged is the number of tracks found. *)
Theorem constructed_radio_is_idle (env : Env) (o : WebRadio.RawOptions) (w : World) :
  WebRadio.constructor env o = Normal w ->
  _currentSongStream (player w) = None
  /\ sinks (player w) = [] /\ songs (player w) = []
  /\ currentSong (player w) = None /\ playing (player w) = false
  /\ passThroughs w = [] /\ readStreams w = [] /\ pipes w = []
  /\ suspended w = [] /\ rejected w = []
  /\ existsSync env (audioDirectory (_options (player w))) = true
  /\ (truthy (bitrate (_options (player w))) = false
      \/ typeof (bitrate (_options (player w))) = TNumber)
  /\ exists entries,
       readdirSync env (audioDirectory (_options (player w))) = Some entries
       /\ mp3_names entries <> []
       /\ console w = [LogFound (length (mp3_names entries))].
Proof.
  intros Hw.
  destruct (WebRadio.validate env (WebRadio.defaults o)) as [opts|e] eqn:Hv;
    [|by unfold WebRadio.constructor in Hw; rewrite Hv in Hw].
  pose proof (constructor_run env o opts Hv) as Hrun.
  destruct (validate_ok env _ opts Hv) as (_ & Hex & _ & Hb & _).
  destruct (readdirSync env (audioDirectory opts)) as [entries|] eqn:Hdir;
    [|congruence].
  destruct (length (mp3_names entries) =? 0)%nat eqn:Hn; [congruence|].
  destruct Hrun as (w' & Hw' & Hp & Hh & Hrs & Hpi & Hsu & Hrj & Hco).
  assert (w' = w) as -> by congruence.
  rewrite Hp. fields. repeat split; try done.
  exists entries. repeat split; try done.
  intros Hnil. rewrite Hnil in Hn. done.
Qed.

(** X3.  With options that pass the checks, [new WebRadio] throws the
    error of [readdirSync] when the audio directory cannot be listed, and
    the no-MP3-files error when the listing holds no name with extension
    [.mp3]. *)
Theorem constructor_catalog_errors
    (env : Env) (o : WebRadio.RawOptions) (opts : Options) :
  WebRadio.validate env (WebRadio.defaults o) = Normal opts ->
  match readdirSync env (audioDirectory opts) with
  | None => WebRadio.constructor env o = Throw ReaddirError
  | Some entries =>
      match mp3_names entries with
      | [] => WebRadio.constructor env o = Throw NoMp3Files
      | _ :: _ => exists w, WebRadio.constructor env o = Normal w
      end
  end.
Proof.
  intros Hv. pose proof (constructor_run env o opts Hv) as Hrun.
  destruct (readdirSync env (audioDirectory opts)) as [entries|]; [|done].
  destruct (mp3_names entries) as [|song rest]; [done|].
  cbn in Hrun. destruct Hrun as (w & Hw & _). eauto.
Qed.

(** X24.  The checks of [new WebRadio] come in a fixed order: a
    [bitrate] that is truthy and not a number (the string ["128000"],
    say) is rejected with the bitrate error whatever [loop], [shuffle]
    and [logFn] are, but only once the audio directory has been found
    to be a string naming an existing location. *)
Theorem bitrate_of_wrong_type_is_rejected (env : Env) (o : WebRadio.RawOptions) :
  truthy (WebRadio.raw_bitrate o) = true ->
  typeof (WebRadio.raw_bitrate o) <> TNumber ->
  WebRadio.constructor env o
  = match WebRadio.raw_audioDirectory (WebRadio.defaults o) with
    | VStr dir => if existsSync env dir then Throw BitrateNotNumber
                  else Throw DirectoryMissing
    | _ => Throw DirectoryNotString
    end.
Proof.
  intros Hb Ht. unfold WebRadio.constructor, WebRadio.validate.
  rewrite (defaults_fields o).
  cbn [WebRadio.raw_audioDirectory WebRadio.raw_bitrate].
  destruct (if truthy (WebRadio.raw_audioDirectory o) then _ else _);
    try reflexivity.
  destruct (existsSync env s); cbn [negb]; [|reflexivity].
  rewrite Hb. destruct (typeof (WebRadio.raw_bitrate o)); try reflexivity.
  done.
Qed.

(* ===================================================================== *)
(** ** A falsy bitrate option *)
(* ===================================================================== *)

Lemma bitrate_configured v w : bitrate (_options (player (configured v w))) = v.
Proof. reflexivity. Qed.

Lemma defaults_with_raw_bitrate v o :
  WebRadio.defaults (with_raw_bitrate v o)
  = with_raw_bitrate v (WebRadio.defaults o).
Proof.
  unfold WebRadio.defaults, with_raw_bitrate. destruct o as [d b l s f]. cbn.
  destruct (truthy d); cbn;
    destruct (WebRadio.is_undefined l); cbn;
    destruct (WebRadio.is_undefined s); cbn;
    destruct (truthy f); reflexivity.
Qed.

Lemma validate_falsy_bitrate env v o :
  truthy v = false ->
  WebRadio.validate env (with_raw_bitrate v o)
  = match WebRadio.validate env (with_raw_bitrate VUndefined o) with
    | Normal opts => Normal (with_bitrate v opts)
    | Throw e => Throw e
    end.
Proof.
  intros Hv. unfold WebRadio.validate, with_raw_bitrate. cbn. rewrite Hv. cbn.
  destruct (WebRadio.raw_audioDirectory o); try reflexivity.
  destruct (existsSync env s); cbn; [|reflexivity].
  destruct (WebRadio.raw_loop o); try reflexivity.
  destruct (WebRadio.raw_shuffle o); try reflexivity.
  destruct (type_tag_eqb _ _); reflexivity.
Qed.

Lemma readSongs_configured env v w :
  Player.readSongs env (configured v w)
  = (fst (Player.readSongs env w), configured v (snd (Player.readSongs env w))).
Proof.
  unfold Player.readSongs. unfold_monad. fields. cbn [with_bitrate audioDirectory shuffle].
  destruct (readdirSync env _); [|reflexivity].
  destruct (shuffle _); reflexivity.
Qed.

(** Whatever the other options are, [new WebRadio] with a falsy
    [bitrate] throws exactly when it throws with no [bitrate] at all,
    and otherwise builds the same radio with the option stored. *)
Lemma constructor_falsy_bitrate env v o :
  truthy v = false ->
  WebRadio.constructor env (with_raw_bitrate v o)
  = match WebRadio.constructor env (with_raw_bitrate VUndefined o) with
    | Normal w => Normal (configured v w)
    | Throw e => Throw e
    end.
Proof.
  intros Hv. unfold WebRadio.constructor.
  rewrite !defaults_with_raw_bitrate, (validate_falsy_bitrate env v) by done.
  destruct (WebRadio.validate env _) as [opts|e]; [|reflexivity].
  unfold Player.constructor. unfold_monad.
  change (Player.new (with_bitrate v opts)) with (configured v (Player.new opts)).
  rewrite readSongs_configured.
  destruct (Player.readSongs env (Player.new opts)) as [[l|e] w1]; [|reflexivity].
  cbn [fst snd].
  change (on_console (fun c => c ++ [LogFound (length l)]) (configured v w1))
    with (configured v (on_console (fun c => c ++ [LogFound (length l)]) w1)).
  rewrite readSongs_configured.
  destruct (Player.readSongs env _) as [[l'|e'] w2]; [|reflexivity].
  cbn [fst snd]. destruct (length l' =? 0)%nat; reflexivity.
Qed.

(** C10.  A [bitrate] option that is a falsy number ([0], [-0], [NaN])
    passes the constructor's checks and is then not used.  When the
    other options are in order (the audio directory is a string naming
    an existing directory that lists at least one track, [loop] and
    [shuffle] are booleans, [logFn] is a function, each after the
    defaults):
    - the checks return the options with the falsy number stored as
      [bitrate], and [new WebRadio] builds the radio it builds with no
      [bitrate] at all, apart from that stored option;
    - [getBitRate] returns what it returns with no [bitrate]
      configured: the parsed [bit_rate] of the probe, or [128000] when
      reading it from the probe throws; never the configured number. *)
Theorem falsy_bitrate_is_ignored
    (env : Env) (o : WebRadio.RawOptions) (n : number)
    (dir : string) (l s : bool) (entries : list Dirent)
    (song : string) (probe : ProbeOutcome) (w : World) :
  truthy (VNum n) = false ->
  WebRadio.raw_audioDirectory (WebRadio.defaults o) = VStr dir ->
  existsSync env dir = true ->
  WebRadio.raw_loop (WebRadio.defaults o) = VBool l ->
  WebRadio.raw_shuffle (WebRadio.defaults o) = VBool s ->
  typeof (WebRadio.raw_logFn (WebRadio.defaults o)) = TFunction ->
  readdirSync env dir = Some entries ->
  mp3_names entries <> [] ->
  WebRadio.validate env (WebRadio.defaults (with_raw_bitrate (VNum n) o))
  = Normal (mkOptions dir (VNum n) l s)
  /\ (exists plain,
        WebRadio.constructor env (with_raw_bitrate VUndefined o) = Normal plain
        /\ WebRadio.constructor env (with_raw_bitrate (VNum n) o)
           = Normal (configured (VNum n) plain))
  /\ fst (Player.getBitRate song probe (configured (VNum n) w))
     = fst (Player.getBitRate song probe (configured VUndefined w))
  /\ fst (Player.getBitRate song probe (configured (VNum n) w))
     = Normal match probed_bit_rate probe with
              | Normal bitRate => parseInt bitRate
              | Throw _ => Int 128000
              end.
Proof.
  intros Hn Hdir Hex Hl Hs Hf Hls Hne.
  assert (Hv : forall v, truthy v = false ->
             WebRadio.validate env (WebRadio.defaults (with_raw_bitrate v o))
             = Normal (mkOptions dir v l s)).
  { intros v Hv. rewrite defaults_with_raw_bitrate.
    unfold WebRadio.validate, with_raw_bitrate.
    cbn [WebRadio.raw_audioDirectory WebRadio.raw_bitrate WebRadio.raw_loop
         WebRadio.raw_shuffle WebRadio.raw_logFn].
    by rewrite Hdir, Hex, Hv, Hl, Hs, Hf. }
  split; [by apply Hv|]. split.
  - pose proof (constructor_run env (with_raw_bitrate VUndefined o)
                  (mkOptions dir VUndefined l s) (Hv VUndefined eq_refl)) as Hrun.
    cbn [audioDirectory] in Hrun. rewrite Hls in Hrun.
    destruct (length (mp3_names entries) =? 0)%nat eqn:Hlen.
    { apply Nat.eqb_eq in Hlen. by destruct (mp3_names entries). }
    destruct Hrun as (plain & Hplain & _). exists plain. split; [done|].
    by rewrite (constructor_falsy_bitrate env (VNum n) o Hn), Hplain.
  - rewrite !getBitRate_run, !bitrate_configured, Hn.
    change (truthy VUndefined) with false. cbn iota.
    destruct (probed_bit_rate probe); done.
Qed.

Lemma falsy_bitrate_is_ignored_witness :
  WebRadio.validate demo_env
    (WebRadio.defaults (with_raw_bitrate (VNum (Int 0)) demo_options))
  = Normal (mkOptions "./audio" (VNum (Int 0)) false false)
  /\ (exists plain,
        WebRadio.constructor demo_env (with_raw_bitrate VUndefined demo_options)
        = Normal plain
        /\ WebRadio.constructor demo_env
             (with_raw_bitrate (VNum (Int 0)) demo_options)
           = Normal (configured (VNum (Int 0)) plain))
  /\ fst (Player.getBitRate "./audio/a.mp3" probe_320k
            (configured (VNum (Int 0)) demo_radio))
     = fst (Player.getBitRate "./audio/a.mp3" probe_320k
              (configured VUndefined demo_radio))
  /\ fst (Player.getBitRate "./audio/a.mp3" probe_320k
            (configured (VNum (Int 0)) demo_radio))
     = Normal match probed_bit_rate probe_320k with
              | Normal bitRate => parseInt bitRate
              | Throw _ => Int 128000
              end.
Proof.
  apply (falsy_bitrate_is_ignored demo_env demo_options (Int 0)
           "./audio" false false demo_entries
           "./audio/a.mp3" probe_320k demo_radio).
  - vm_compute. reflexivity.
  - vm_compute. reflexivity.
  - vm_compute. reflexivity.
  - vm_compute. reflexivity.
  - vm_compute. reflexivity.
  - vm_compute. reflexivity.
  - vm_compute. reflexivity.
  - vm_compute. discriminate.
Defined.

Example zero_bitrate_demo :
  let radio := WebRadio.constructor demo_env
                 (with_raw_bitrate (VNum (Int 0)) demo_options) in
  radio = Normal (configured (VNum (Int 0)) demo_radio)
  /\ fst (Player.getBitRate "./audio/a.mp3" probe_320k
            (configured (VNum (Int 0)) demo_radio)) = Normal (Int 320000)
  /\ fst (Player.getBitRate "./audio/a.mp3" Rejected
            (configured (VNum (Int 0)) demo_radio)) = Normal (Int 128000)
  /\ WebRadio.constructor demo_env (with_raw_bitrate (VStr "fast") demo_options)
     = Throw BitrateNotNumber.
Proof. vm_compute. repeat split. Qed.

(* ===================================================================== *)
(** ** More on the catalog and the bitrate *)
(* ===================================================================== *)

(** X4.  When the audio directory can be listed and its entries have
    distinct names, [readSongs] returns every name with extension [.mp3]
    exactly once: a duplicate-free permutation of them whatever
    [Math.random] returns, and the names in directory order, with
    nothing changed, when [shuffle] is off. *)
Theorem readSongs_lists_each_track_once
    (env : Env) (w : World) (entries : list Dirent) :
  readdirSync env (audioDirectory (_options (player w))) = Some entries ->
  NoDup (map name entries) ->
  exists l w',
    Player.readSongs env w = (Normal l, w')
    /\ l ≡ₚ mp3_names entries
    /\ NoDup l
    /\ (shuffle (_options (player w)) = false -> l = mp3_names entries /\ w' = w).
Proof.
  intros Hdir Hnd.
  destruct (readSongs_readable env w entries Hdir) as (l & w' & Hrun).
  destruct (readSongs_length env w entries l w' Hdir Hrun) as (_ & Hperm & _).
  exists l, w'. repeat split; try done.
  - rewrite Hperm. by apply mp3_names_NoDup.
  - rewrite (readSongs_unshuffled env w entries) in Hrun by done. congruence.
  - rewrite (readSongs_unshuffled env w entries) in Hrun by done. congruence.
Qed.

(** X5.  [getBitRate] never throws.  Either it returns a number and
    leaves the world as it was, or it returns [128000] after logging
    the fallback message once. *)
Theorem getBitRate_absorbs_every_failure
    (song : string) (probe : ProbeOutcome) (w : World) :
  (exists bitRate, Player.getBitRate song probe w = (Normal bitRate, w))
  \/ Player.getBitRate song probe w
     = (Normal (Int 128000),
        on_console (fun c => c ++ [LogBitrateFallback song]) w).
Proof.
  rewrite getBitRate_run.
  destruct (truthy _); [left; eauto|].
  destruct (probed_bit_rate probe); [left; eauto | by right].
Qed.

(** X6.  A configured [bitrate] that is a positive integer (below
    [10^21], where numbers print in full) is what [getBitRate] returns,
    whatever the probe would report; the probe result is not looked at
    and nothing is logged. *)
Theorem configured_bitrate_is_returned
    (song : string) (probe : ProbeOutcome) (w : World) (z : Z) :
  bitrate (_options (player w)) = VNum (Int z) ->
  0 < z < 10 ^ 21 ->
  Player.getBitRate song probe w = (Normal (Int z), w).
Proof. apply getBitRate_fixed. Qed.

Lemma parseInt_decimal_string z :
  0 < z -> parseInt (VStr (digits_of_Z z)) = Int z.
Proof.
  intros Hz. destruct z as [|p|p]; try lia.
  unfold parseInt, digits_of_Z. cbn [to_string Z.to_int NilZero.string_of_int].
  pose proof (DecimalPos.Unsigned.to_uint_nonnil p) as Hnil.
  assert (NilZero.string_of_uint (Pos.to_uint p)
          = NilEmpty.string_of_uint (Pos.to_uint p)) as ->
    by (by destruct (Pos.to_uint p)).
  fold (chars_of_uint (Pos.to_uint p)).
  rewrite parseInt_chars_uint by done.
  by rewrite uint_value_0, DecimalPos.Unsigned.of_to.
Qed.

(** X7.  With no (truthy) [bitrate] configured, when ffprobe reports the
    first stream's [bit_rate] as the decimal string of a positive
    integer up to [2^53] (where every integer is a double, so that the
    parsed number is the integer written), [getBitRate] returns that
    integer and logs nothing. *)
Theorem probed_bit_rate_is_returned
    (song : string) (w : World) (z : Z)
    (report stream0 : list (string * value)) (others : list value) :
  truthy (bitrate (_options (player w))) = false ->
  assoc "streams" report = Some (VArr (VObj stream0 :: others)) ->
  assoc "bit_rate" stream0 = Some (VStr (digits_of_Z z)) ->
  0 < z <= 2 ^ 53 ->
  Player.getBitRate song (Resolved (VObj report)) w = (Normal (Int z), w).
Proof.
  intros Hb Hstreams Hrate Hz. rewrite getBitRate_run, Hb.
  cbn [probed_bit_rate get_prop]. rewrite Hstreams.
  cbn [default from_option id get_index0 head get_prop]. rewrite Hrate.
  cbn [default from_option id]. by rewrite parseInt_decimal_string by lia.
Qed.

(* ===================================================================== *)
(** ** Track advance *)
(* ===================================================================== *)

Lemma playNextSong_next env w song rest :
  songs (player w) = song :: rest ->
  Player.playNextSong env w
  = (Normal tt, opened (audioDirectory (_options (player w))) song rest w).
Proof.
  intros Hq. destruct w as [[o s m q c pl] h rs ps su rj co rc].
  cbn in Hq. subst q. reflexivity.
Qed.

Lemma playNextSong_refill env w l w1 :
  songs (player w) = [] ->
  loop (_options (player w)) = true ->
  Player.readSongs env w = (Normal l, w1) ->
  Player.playNextSong env w
  = match l with
    | song :: rest =>
        (Normal tt,
         opened (audioDirectory (_options (player w))) song rest
           (on_player (set_songs l) w1))
    | [] => (Throw TypeError,
             on_player (set_songs [])
               (on_player (set_currentSong None) (on_player (set_songs []) w1)))
    end.
Proof.
  intros Hq Hloop Hread. unfold Player.playNextSong. unfold_monad. fields.
  rewrite Hq, Hloop. cbn [length Nat.eqb]. rewrite Hread. fields.
  destruct l as [|song rest]; [reflexivity|].
  destruct w1 as [[o s m q c pl] h rs ps su rj co rc]. reflexivity.
Qed.

Lemma playNextSong_exhausted env w stream :
  songs (player w) = [] ->
  loop (_options (player w)) = false ->
  _currentSongStream (player w) = Some stream ->
  Player.playNextSong env w
  = (Normal tt,
     on_console (fun c => c ++ [LogStopped])
       (on_player (set_sinks [])
          (on_passThroughs (call_each end_ (Map_values (sinks (player w))))
             (on_player (set_playing false)
                (on_player (set_currentSongStream None)
                   (on_readStreams (alter rs_destroy stream)
                      (on_console (fun c => c ++ [LogNoMoreSongs]) w))))))).
Proof.
  intros Hq Hloop Hs. unfold Player.playNextSong, Player.end_all_sinks.
  unfold_monad. fields. rewrite Hq, Hloop. cbn [length Nat.eqb]. fields.
  rewrite Hs, for_of_sink_call. reflexivity.
Qed.

Lemma playNextSong_exhausted_idle env w :
  songs (player w) = [] ->
  loop (_options (player w)) = false ->
  _currentSongStream (player w) = None ->
  Player.playNextSong env w
  = (Throw TypeError, on_console (fun c => c ++ [LogNoMoreSongs]) w).
Proof.
  intros Hq Hloop Hs. unfold Player.playNextSong. unfold_monad. fields.
  rewrite Hq, Hloop. cbn [length Nat.eqb]. fields. by rewrite Hs.
Qed.

Lemma getBitRate_frame song probe w :
  exists bitRate msgs,
    Player.getBitRate song probe w
    = (Normal bitRate, on_console (fun c => c ++ msgs) w).
Proof.
  assert (Hid : w = on_console (fun c => c ++ []) w)
    by (destruct w; unfold on_console; fields; f_equal; symmetry; apply app_nil_r).
  rewrite getBitRate_run.
  destruct (truthy _); [eexists _, []; by rewrite <- Hid|].
  destruct (probed_bit_rate probe).
  - eexists _, []. by rewrite <- Hid.
  - by exists (Int 128000), [LogBitrateFallback song].
Qed.

(** Resuming the only suspended call. *)
Lemma resume_run i probe w p :
  suspended w !! i = Some p ->
  exists bitRate msgs,
    Player.getBitRate p probe (on_suspended (delete i) w)
    = (Normal bitRate, on_console (fun c => c ++ msgs) (on_suspended (delete i) w))
    /\ call_async (Player.playNextSong_resume i probe) w
       = (Normal tt,
          let w1 :=
            on_player (set_playing true)
              (on_console
                 (fun c => c ++ [LogNowPlaying (currentSong (player w)) bitRate])
                 (on_console (fun c => c ++ msgs) (on_suspended (delete i) w))) in
          match _currentSongStream (player w) with
          | Some stream => on_pipes (fun ps => ps ++ [(stream, bitRate)]) w1
          | None => on_rejected (fun r => r ++ [TypeError]) w1
          end).
Proof.
  intros Hp.
  destruct (getBitRate_frame p probe (on_suspended (delete i) w))
    as (b & msgs & Hb).
  exists b, msgs. split; [done|].
  unfold Player.playNextSong_resume. unfold_monad. rewrite Hp.
  fields. rewrite Hb. fields.
  destruct (_currentSongStream (player w)); reflexivity.
Qed.

Lemma opened_opens_track w w1 l song rest :
  player w1 = player w -> passThroughs w1 = passThroughs w ->
  readStreams w1 = readStreams w -> pipes w1 = pipes w ->
  suspended w1 = suspended w -> rejected w1 = rejected w ->
  opens_track w
    (opened (audioDirectory (_options (player w))) song rest
       (on_player (set_songs l) w1))
    song rest.
Proof.
  intros Hp Hh Hrs Hpi Hsu Hrj. unfold opens_track, opened. fields.
  rewrite Hp, Hh, Hrs, Hpi, Hsu, Hrj. done.
Qed.

Lemma WebRadio_start_idle env w :
  _currentSongStream (player w) = None ->
  WebRadio.start env w = Player.start env w.
Proof.
  intros Hs. unfold WebRadio.start. unfold_monad. rewrite Hs.
  rewrite bool_decide_false by (intros H; by apply H). reflexivity.
Qed.

Lemma Player_start_run env w l w1 :
  Player.readSongs env w = (Normal l, w1) ->
  Player.start env w
  = call_async (Player.playNextSong env) (on_player (set_songs l) w1).
Proof.
  intros Hread. unfold Player.start. unfold mbind at 1, M_bind at 1.
  rewrite Hread. reflexivity.
Qed.

(** X8.  [start()] on a radio with no current byte source (new, or
    stopped), whose audio directory lists at least one track: the call
    returns normally, the catalog is read afresh, its first track (the
    first name in directory order when [shuffle] is off) is opened and
    the rest is queued.  The [playing] flag is not touched yet: it is
    set when the bitrate has been resolved. *)
Theorem start_opens_first_track (env : Env) (w : World) (entries : list Dirent) :
  _currentSongStream (player w) = None ->
  readdirSync env (audioDirectory (_options (player w))) = Some entries ->
  mp3_names entries <> [] ->
  exists song rest,
    fst (WebRadio.start env w) = Normal tt
    /\ song :: rest ≡ₚ mp3_names entries
    /\ (shuffle (_options (player w)) = false -> song :: rest = mp3_names entries)
    /\ opens_track w (snd (WebRadio.start env w)) song rest.
Proof.
  intros Hs Hdir Hne. rewrite WebRadio_start_idle by done.
  destruct (readSongs_readable env w entries Hdir) as (l & w1 & Hread).
  destruct (readSongs_length env w entries l w1 Hdir Hread)
    as (Hlen & Hperm & Hp & Hh & Hrs & Hpi & Hsu & Hrj & _).
  rewrite (Player_start_run env w l w1 Hread).
  destruct l as [|song rest].
  { destruct (mp3_names entries); [done | by cbn in Hlen]. }
  exists song, rest. unfold call_async, try_catch.
  rewrite (playNextSong_next env _ song rest) by reflexivity.
  cbn [fst snd]. split; [done|]. split; [done|]. split.
  - intros Hsh. rewrite (readSongs_unshuffled env w entries) in Hread by done.
    congruence.
  - assert (Ho : _options (player w1) = _options (player w)) by by rewrite Hp.
    fields. rewrite Ho. by apply opened_opens_track.
Qed.

(** X9.  [start()] on a radio with no current byte source whose audio
    directory cannot be listed throws the error of [readdirSync] and
    changes nothing. *)
Theorem start_with_unreadable_directory (env : Env) (w : World) :
  _currentSongStream (player w) = None ->
  readdirSync env (audioDirectory (_options (player w))) = None ->
  WebRadio.start env w = (Throw ReaddirError, w).
Proof.
  intros Hs Hdir. rewrite WebRadio_start_idle by done.
  unfold Player.start. unfold mbind at 1, M_bind at 1.
  by rewrite readSongs_unreadable.
Qed.

Lemma readSongs_empty env w entries l w1 :
  readdirSync env (audioDirectory (_options (player w))) = Some entries ->
  mp3_names entries = [] ->
  Player.readSongs env w = (Normal l, w1) ->
  l = [].
Proof.
  intros Hdir Hnil Hread.
  destruct (readSongs_length env w entries l w1 Hdir Hread) as (Hlen & _).
  rewrite Hnil in Hlen. by destruct l.
Qed.

(** X10.  [start()] on a radio with no current byte source whose audio
    directory lists no track returns normally, but the [playNextSong]
    it launched fails with a [TypeError] that nobody catches (on
    [null.destroy()] when [loop] is off, on the undefined song name when
    it is on).  Nothing is opened, nothing is pending, and the radio
    stays offline. *)
Theorem start_with_empty_catalog (env : Env) (w : World) (entries : list Dirent) :
  _currentSongStream (player w) = None ->
  readdirSync env (audioDirectory (_options (player w))) = Some entries ->
  mp3_names entries = [] ->
  let w' := snd (WebRadio.start env w) in
  fst (WebRadio.start env w) = Normal tt
  /\ rejected w' = rejected w ++ [TypeError]
  /\ _currentSongStream (player w') = None
  /\ songs (player w') = []
  /\ readStreams w' = readStreams w
  /\ suspended w' = suspended w
  /\ pipes w' = pipes w
  /\ playing (player w') = playing (player w)
  /\ sinks (player w') = sinks (player w)
  /\ passThroughs w' = passThroughs w.
Proof.
  intros Hs Hdir Hnil w'. subst w'. rewrite WebRadio_start_idle by done.
  destruct (readSongs_readable env w entries Hdir) as (l & w1 & Hread).
  pose proof (readSongs_empty env w entries l w1 Hdir Hnil Hread) as ->.
  destruct (readSongs_length env w entries [] w1 Hdir Hread)
    as (_ & _ & Hp & Hh & Hrs & Hpi & Hsu & Hrj & _).
  rewrite (Player_start_run env w [] w1 Hread).
  set (w2 := on_player (set_songs []) w1).
  assert (Hs2 : _currentSongStream (player w2) = None)
    by (subst w2; fields; by rewrite Hp).
  unfold call_async, try_catch.
  destruct (loop (_options (player w2))) eqn:Hloop.
  - assert (Hdir2 : readdirSync env (audioDirectory (_options (player w2)))
                    = Some entries) by (subst w2; fields; by rewrite Hp).
    destruct (readSongs_readable env w2 entries Hdir2) as (l2 & w3 & Hread2).
    pose proof (readSongs_empty env w2 entries l2 w3 Hdir2 Hnil Hread2) as ->.
    destruct (readSongs_length env w2 entries [] w3 Hdir2 Hread2)
      as (_ & _ & Hp3 & Hh3 & Hrs3 & Hpi3 & Hsu3 & Hrj3 & _).
    rewrite (playNextSong_refill env w2 [] w3) by done.
    unfold modify. fields.
    rewrite Hp3, Hh3, Hrs3, Hpi3, Hsu3, Hrj3. subst w2. fields.
    rewrite Hp, Hh, Hrs, Hpi, Hsu, Hrj. done.
  - rewrite (playNextSong_exhausted_idle env w2) by done.
    unfold modify. subst w2. fields.
    rewrite Hp, Hh, Hrs, Hpi, Hsu, Hrj. by rewrite Hp in Hs2.
Qed.

Lemma on_end_playing env w :
  playing (player w) = true ->
  Player.on_end env w = call_async (Player.playNextSong env) w.
Proof. intros Hon. unfold Player.on_end. unfold_monad. by rewrite Hon. Qed.

(** X11.  When a track ends while the radio is playing and the queue is
    not empty, the next track is taken off the queue and opened.  The
    listeners are untouched: the registry and every sink are as they
    were, so they go on receiving with the next track.  The callback
    makes no [destroy()] call on the byte source that has ended (it
    has closed by itself): the earlier byte sources are as recorded. *)
Theorem track_end_advances_to_next
    (env : Env) (w : World) (song : string) (rest : list string) :
  playing (player w) = true ->
  songs (player w) = song :: rest ->
  fst (Player.on_end env w) = Normal tt
  /\ opens_track w (snd (Player.on_end env w)) song rest.
Proof.
  intros Hon Hq. rewrite on_end_playing by done.
  unfold call_async, try_catch.
  rewrite (playNextSong_next env w song rest Hq). cbn [fst snd].
  split; [done|]. unfold opens_track, opened. fields. done.
Qed.

(** X12.  When the last queued track ends while the radio is playing and
    [loop] is on, the catalog is read again (and shuffled again if
    [shuffle] is on), its first track is opened and the rest queued:
    the radio does not stop, and the listeners are untouched. *)
Theorem loop_refills_the_queue (env : Env) (w : World) (entries : list Dirent) :
  playing (player w) = true ->
  songs (player w) = [] ->
  loop (_options (player w)) = true ->
  readdirSync env (audioDirectory (_options (player w))) = Some entries ->
  mp3_names entries <> [] ->
  exists song rest,
    fst (Player.on_end env w) = Normal tt
    /\ song :: rest ≡ₚ mp3_names entries
    /\ (shuffle (_options (player w)) = false -> song :: rest = mp3_names entries)
    /\ opens_track w (snd (Player.on_end env w)) song rest.
Proof.
  intros Hon Hq Hloop Hdir Hne. rewrite on_end_playing by done.
  destruct (readSongs_readable env w entries Hdir) as (l & w1 & Hread).
  destruct (readSongs_length env w entries l w1 Hdir Hread)
    as (Hlen & Hperm & Hp & Hh & Hrs & Hpi & Hsu & Hrj & _).
  unfold call_async, try_catch.
  rewrite (playNextSong_refill env w l w1) by done.
  destruct l as [|song rest].
  { destruct (mp3_names entries); [done | by cbn in Hlen]. }
  exists song, rest. cbn [fst snd]. split; [done|]. split; [done|]. split.
  - intros Hsh. rewrite (readSongs_unshuffled env w entries) in Hread by done.
    congruence.
  - by apply opened_opens_track.
Qed.

(* ===================================================================== *)
(** ** Listeners come and go *)
(* ===================================================================== *)

Lemma Map_get_set_ne {V} (k k' : string) (v : V) (m : Map V) :
  k' <> k -> Map_get k' (Map_set k v m) = Map_get k' m.
Proof.
  intros Hne. induction m as [|[k0 v0] m IH]; simpl.
  - destruct (String.eqb k' k) eqn:E; [|done]. by apply String.eqb_eq in E.
  - destruct (String.eqb k k0) eqn:E; simpl.
    + apply String.eqb_eq in E as <-.
      destruct (String.eqb k' k) eqn:E'; [|done]. by apply String.eqb_eq in E'.
    + by rewrite IH.
Qed.

(** X13.  While the radio is online (the flag is on or a byte source is
    current), the middleware of [connect()] answers a request by
    registering a new, empty sink under the request's identifier: the
    sink holds none of the chunks broadcast before, and the sinks and
    identifiers of the other listeners are as they were. *)
Theorem connect_registers_an_empty_sink (id : string) (w : World) :
  playing (player w) = true \/ _currentSongStream (player w) <> None ->
  let w' := snd (WebRadio.connect id w) in
  let responseSink := length (passThroughs w) in
  fst (WebRadio.connect id w) = Normal (WebRadio.Streaming id responseSink)
  /\ Map_get id (sinks (player w')) = Some responseSink
  /\ passThroughs w' = passThroughs w ++ [new_PassThrough]
  /\ (forall other, other <> id ->
        Map_get other (sinks (player w')) = Map_get other (sinks (player w)))
  /\ playing (player w') = playing (player w)
  /\ _currentSongStream (player w') = _currentSongStream (player w)
  /\ songs (player w') = songs (player w)
  /\ readStreams w' = readStreams w.
Proof.
  intros Honline w' responseSink. subst w' responseSink.
  rewrite connect_online by done. fields.
  repeat split; try done.
  - apply Map_get_set_eq.
  - intros other Hne. by apply Map_get_set_ne.
Qed.

Lemma broadcast_all_nobody chunks h : broadcast_all chunks [] h = h.
Proof. induction chunks as [|c chunks IH]; [done|]. by rewrite broadcast_all_cons. Qed.

Lemma run_data_nobody env chunks w :
  sinks (player w) = [] -> run env (map Data chunks) w = w.
Proof.
  intros Hreg. rewrite run_data, Hreg. cbn [Map_values map].
  destruct w. unfold on_passThroughs. fields. by rewrite broadcast_all_nobody.
Qed.

Lemma Map_get_delete_ne {V} (k k' : string) (m : Map V) :
  k' <> k -> Map_get k' (Map_delete k m) = Map_get k' m.
Proof.
  intros Hne. induction m as [|[k0 v0] m IH]; simpl; [done|].
  destruct (String.eqb k k0) eqn:E; simpl.
  - apply String.eqb_eq in E as <-.
    destruct (String.eqb k' k) eqn:E'; [|done]. by apply String.eqb_eq in E'.
  - by rewrite IH.
Qed.

(** In a registry without repeated sinks a sink is found under one key
    only. *)
Lemma Map_get_key_unique {V} (k k' : string) (v : V) (m : Map V) :
  NoDup (Map_values m) ->
  Map_get k m = Some v -> Map_get k' m = Some v -> k = k'.
Proof.
  induction m as [|[k0 v0] m IH]; simpl; [done|].
  intros [Hv Hnd]%NoDup_cons.
  destruct (String.eqb k k0) eqn:E, (String.eqb k' k0) eqn:E'.
  - apply String.eqb_eq in E, E'. congruence.
  - intros [= ->] Hget. exfalso. apply Hv. by eapply Map_get_values.
  - intros Hget [= ->]. exfalso. apply Hv. by eapply Map_get_values.
  - by apply IH.
Qed.

(** Binding a key anew puts its former sink out of the registry. *)
Lemma Map_set_displaces {V} (k : string) (v v' : V) (m : Map V) :
  NoDup (Map_values m) -> Map_get k m = Some v -> v <> v' ->
  v ∉ Map_values (Map_set k v' m).
Proof.
  induction m as [|[k0 v0] m IH]; simpl; [done|].
  intros [Hv Hnd]%NoDup_cons.
  destruct (String.eqb k k0) eqn:E; simpl.
  - intros [= ->] Hne [?|Hin]%elem_of_cons; done.
  - intros Hget Hne [->|Hin]%elem_of_cons.
    + apply Hv. by eapply Map_get_values.
    + by apply (IH Hnd Hget Hne).
Qed.

Lemma call_each_end_received ls h l :
  (received <$> call_each end_ ls h !! l) = (received <$> h !! l).
Proof.
  revert h. induction ls as [|l' ls IH]; intros h; [done|].
  unfold call_each in *. cbn [fold_left]. rewrite IH.
  destruct (decide (l = l')) as [->|Hne].
  - rewrite list_lookup_alter_eq. by destruct (h !! l').
  - by rewrite list_lookup_alter_ne.
Qed.

Lemma handle_connect env id w :
  snd (handle env (Connect id) w) = snd (WebRadio.connect id w).
Proof.
  cbn [handle]. unfold mbind, M_bind, mret, M_ret.
  by destruct (WebRadio.connect id w) as [[r|e] w'].
Qed.

(** The events that serve no single listener ([start()], [stop()], a
    resumed [playNextSong], the end of a track) take a registry step. *)
Lemma handle_registry_step env e w :
  match e with
  | Connect _ | Close _ | Data _ => True
  | _ => registry_step w (snd (handle env e w))
  end.
Proof.
  destruct e as [|g|id|id|i probe|chunk|]; cbn [handle]; try done.
  - apply keeps_WebRadio_start.
  - apply keeps_WebRadio_stop.
  - apply keeps_call_async, keeps_playNextSong_resume.
  - apply keeps_on_end.
Qed.

(** One event and one connected listener: either the listener stays
    connected, and its sink has received the chunk if the event is a
    chunk of the Pacer and is untouched otherwise; or its sink is put
    out of the registry, having received nothing more. *)
Lemma handle_listener env e w id sink :
  live_registry w = true ->
  Map_get id (sinks (player w)) = Some sink ->
  let w' := snd (handle env e w) in
  (Map_get id (sinks (player w')) = Some sink
   /\ passThroughs w' !! sink
      = match e with
        | Data chunk => write chunk <$> passThroughs w !! sink
        | _ => passThroughs w !! sink
        end)
  \/ ((sink ∉ Map_values (sinks (player w')))
      /\ (sink < length (passThroughs w'))%nat
      /\ (received <$> passThroughs w' !! sink)
         = (received <$> passThroughs w !! sink)
      /\ (e = Close id ->
          passThroughs w' !! sink = destroy <$> passThroughs w !! sink)).
Proof.
  intros Hlive Hget w'. subst w'.
  pose proof (live_registry_NoDup w Hlive) as Hnd.
  pose proof (Map_get_values _ _ _ Hget) as Hin.
  destruct (live_registry_live w sink Hlive Hin) as (s & Hs & Hok).
  pose proof (lookup_lt_Some _ _ _ Hs) as Hlt.
  assert (Hstep : forall w',
             registry_step w w' ->
             (Map_get id (sinks (player w')) = Some sink
              /\ passThroughs w' !! sink = passThroughs w !! sink)
             \/ ((sink ∉ Map_values (sinks (player w')))
                 /\ (sink < length (passThroughs w'))%nat
                 /\ (received <$> passThroughs w' !! sink)
                    = (received <$> passThroughs w !! sink))).
  { intros w' [[Hreg Hheap]|[Hreg Hheap]].
    - left. by rewrite Hreg, Hheap.
    - right. rewrite Hreg, Hheap, call_each_length, call_each_end_received.
      split; [apply not_elem_of_nil | done]. }
  pose proof (handle_registry_step env e w) as He.
  destruct e as [|g|id'|id'|i probe|chunk|].
  - destruct (Hstep _ He) as [?|(?&?&?)]; [by left | right; by repeat split].
  - destruct (Hstep _ He) as [?|(?&?&?)]; [by left | right; by repeat split].
  - rewrite handle_connect.
    destruct (playing (player w)) eqn:Hp;
      [|destruct (_currentSongStream (player w)) eqn:Hcur].
    3: { left. by rewrite connect_offline. }
    all: rewrite connect_online by (by (left + (right; rewrite ?Hcur))); fields.
    all: destruct (decide (id = id')) as [<-|Hne];
      [ right; repeat split;
        [ apply Map_set_displaces; [done..|lia]
        | rewrite length_app; cbn; lia
        | by rewrite lookup_app_l
        | done ]
      | left; rewrite Map_get_set_ne by done; split; [done|];
        by rewrite lookup_app_l ].
  - cbn [handle]. unfold WebRadio.on_close.
    rewrite removeResponseSink_sinks, removeResponseSink_heap.
    destruct (decide (id = id')) as [<-|Hne].
    + right. rewrite Hget, length_alter, list_lookup_alter_eq, Hs.
      repeat split; try done.
      by apply Map_get_not_in_delete.
    + left. rewrite Map_get_delete_ne by done. split; [done|].
      destruct (Map_get id' (sinks (player w))) as [sink'|] eqn:Hget'; [|done].
      rewrite list_lookup_alter_ne; [done|].
      intros ->. apply Hne. by eapply Map_get_key_unique.
  - destruct (Hstep _ He) as [?|(?&?&?)]; [by left | right; by repeat split].
  - left. cbn [handle]. unfold Player.on_data. rewrite broadcastChunk_run. fields.
    split; [done|]. by rewrite call_each_once.
  - destruct (Hstep _ He) as [?|(?&?&?)]; [by left | right; by repeat split].
Qed.

(** A sink that is out of the registry stays out of it, and no event
    touches it. *)
Lemma handle_stranger env e w sink :
  sink ∉ Map_values (sinks (player w)) ->
  (sink < length (passThroughs w))%nat ->
  let w' := snd (handle env e w) in
  (sink ∉ Map_values (sinks (player w')))
  /\ (sink < length (passThroughs w'))%nat
  /\ passThroughs w' !! sink = passThroughs w !! sink.
Proof.
  intros Hout Hlt w'. subst w'.
  assert (Hstep : forall w',
             registry_step w w' ->
             (sink ∉ Map_values (sinks (player w')))
             /\ (sink < length (passThroughs w'))%nat
             /\ passThroughs w' !! sink = passThroughs w !! sink).
  { intros w' [[Hreg Hheap]|[Hreg Hheap]].
    - by rewrite Hreg, Hheap.
    - rewrite Hreg, Hheap, call_each_length, call_each_notin by done.
      split; [apply not_elem_of_nil | done]. }
  pose proof (handle_registry_step env e w) as He.
  destruct e as [|g|id'|id'|i probe|chunk|]; try by apply Hstep.
  - rewrite handle_connect.
    destruct (playing (player w)) eqn:Hp;
      [|destruct (_currentSongStream (player w)) eqn:Hcur].
    3: { by rewrite connect_offline. }
    all: rewrite connect_online by (by (left + (right; rewrite ?Hcur))); fields.
    all: repeat split;
      [ intros [?|?]%Map_values_set; [lia | done]
      | rewrite length_app; cbn; lia
      | by rewrite lookup_app_l ].
  - cbn [handle]. unfold WebRadio.on_close.
    rewrite removeResponseSink_sinks, removeResponseSink_heap.
    split; [intros Hin; by apply Map_values_delete in Hin|].
    destruct (Map_get id' (sinks (player w))) as [sink'|] eqn:Hget'; [|done].
    rewrite length_alter. split; [done|].
    rewrite list_lookup_alter_ne; [done|].
    intros ->. apply Hout. by eapply Map_get_values.
  - cbn [handle]. unfold Player.on_data. rewrite broadcastChunk_run. fields.
    by rewrite call_each_length, call_each_notin.
Qed.

Lemma run_cons env e es w : run env (e :: es) w = run env es (snd (handle env e w)).
Proof. reflexivity. Qed.

Lemma run_stranger env es w sink :
  sink ∉ Map_values (sinks (player w)) ->
  (sink < length (passThroughs w))%nat ->
  (sink ∉ Map_values (sinks (player (run env es w))))
  /\ passThroughs (run env es w) !! sink = passThroughs w !! sink.
Proof.
  revert w. induction es as [|e es IH]; intros w Hout Hlt; [done|].
  destruct (handle_stranger env e w sink Hout Hlt) as (Hout' & Hlt' & Hcell).
  rewrite run_cons. destruct (IH _ Hout' Hlt') as [? ->]. done.
Qed.

Lemma chunks_of_cons e es :
  chunks_of (e :: es)
  = match e with
    | Data chunk => chunk :: chunks_of es
    | _ => chunks_of es
    end.
Proof. by destruct e. Qed.

(** While a listener stays connected its sink receives the chunks of
    the Pacer, each once and in order, and nothing else happens to it. *)
Lemma run_connected env es w id sink :
  live_registry w = true ->
  Map_get id (sinks (player w)) = Some sink ->
  stays_connected env id sink es w = true ->
  live_registry (run env es w) = true
  /\ Map_get id (sinks (player (run env es w))) = Some sink
  /\ passThroughs (run env es w) !! sink
     = write_all (chunks_of es) <$> passThroughs w !! sink.
Proof.
  revert w. induction es as [|e es IH]; intros w Hlive Hget Hstay.
  - repeat split; try done. cbn. by destruct (passThroughs w !! sink).
  - cbn [stays_connected] in Hstay. apply andb_prop in Hstay as [Hkept Hstay].
    apply bool_decide_eq_true in Hkept.
    pose proof (handle_keeps_registry_live env e w Hlive) as Hlive'.
    destruct (handle_listener env e w id sink Hlive Hget)
      as [[_ Hcell]|(Hout & _)].
    2: { destruct Hout. by eapply Map_get_values. }
    rewrite run_cons.
    destruct (IH _ Hlive' Hkept Hstay) as (? & ? & ->).
    repeat split; try done. rewrite Hcell, chunks_of_cons.
    destruct e; try done. by destruct (passThroughs w !! sink).
Qed.

(** X14.  A listener hears the feed from the moment it connects until
    its sink is put out of the registry, and nothing else.  Whatever
    happens while it stays connected (tracks ending and starting, other
    listeners connecting and leaving, a graceful stop), its sink holds
    exactly the chunks the Pacer has emitted since [connect()], in
    order.  Once an event has put the sink out of the registry (the
    close of its response, a hard stop, the end of the last track), no
    later event adds anything to it; after the close of the response it
    is destroyed. *)
Theorem listener_hears_only_its_window
    (env : Env) (id : string) (w : World) (during : list event) :
  online w ->
  live_registry w = true ->
  let responseSink := length (passThroughs w) in
  let connected := run env [Connect id] w in
  stays_connected env id responseSink during connected = true ->
  passThroughs (run env during connected) !! responseSink
  = Some (mkPassThrough (chunks_of during) false false)
  /\ forall (out : event) (after : list event),
       Map_get id (sinks (player (run env (during ++ [out]) connected)))
       <> Some responseSink ->
       let final := run env (during ++ out :: after) connected in
       (received <$> passThroughs final !! responseSink) = Some (chunks_of during)
       /\ (responseSink ∉ Map_values (sinks (player final)))
       /\ (out = Close id ->
           passThroughs final !! responseSink
           = Some (mkPassThrough (chunks_of during) false true)).
Proof.
  intros Honline Hlive responseSink connected Hstay.
  assert (Hw1 : connected = snd (WebRadio.connect id w))
    by apply handle_connect.
  clearbody connected.
  assert (Hlive1 : live_registry connected = true)
    by (rewrite Hw1; by apply connect_keeps_registry_live).
  assert (Hget1 : Map_get id (sinks (player connected)) = Some responseSink)
    by (rewrite Hw1, connect_online by done; fields; apply Map_get_set_eq).
  assert (Hnew1 : passThroughs connected !! responseSink = Some new_PassThrough).
  { rewrite Hw1, connect_online by done. fields. by apply list_lookup_middle. }
  destruct (run_connected env during connected id responseSink Hlive1 Hget1 Hstay)
    as (Hlive2 & Hget2 & Hcell2).
  assert (Hcell : passThroughs (run env during connected) !! responseSink
                  = Some (mkPassThrough (chunks_of during) false false)).
  { rewrite Hcell2, Hnew1. cbn [fmap option_fmap option_map].
    by rewrite write_all_live. }
  split; [done|]. intros out after Hgone final. subst final.
  rewrite run_app in Hgone.
  change (during ++ out :: after) with (during ++ [out] ++ after).
  rewrite !run_app. set (w2 := run env during connected) in *.
  change (run env [out] w2) with (snd (handle env out w2)) in *.
  destruct (handle_listener env out w2 id responseSink Hlive2 Hget2)
    as [[Hkept _]|(Hout & Hlt & Hrec & Hclose)]; [done|].
  destruct (run_stranger env after _ responseSink Hout Hlt) as [Hout' ->].
  rewrite Hrec, Hcell. repeat split; try done.
  intros ->. by rewrite Hclose, Hcell.
Qed.

(** X25.  In every world a radio reaches from its construction,
    [broadcastChunk] delivers: no registered sink refuses the write,
    each has the chunk appended to what it had received and stays open,
    the sinks out of the registry are not touched, and the call returns
    with the player as it was. *)
Theorem broadcast_reaches_every_listener
    (env : Env) (o : WebRadio.RawOptions) (radio : World) (es : list event)
    (chunk : Buffer) :
  WebRadio.constructor env o = Normal radio ->
  let w := run env es radio in
  let w' := snd (Player.broadcastChunk chunk w) in
  fst (Player.broadcastChunk chunk w) = Normal tt
  /\ player w' = player w
  /\ Forall (fun sink =>
               exists s,
                 passThroughs w !! sink = Some s
                 /\ write_fails s = false
                 /\ passThroughs w' !! sink
                    = Some (mkPassThrough (received s ++ [chunk]) false false))
            (Map_values (sinks (player w)))
  /\ forall other,
       other ∉ Map_values (sinks (player w)) ->
       passThroughs w' !! other = passThroughs w !! other.
Proof.
  intros Hradio w w'. subst w'.
  assert (Hlive : live_registry w = true).
  { apply run_keeps_registry_live. unfold live_registry.
    by rewrite (constructor_registry env o radio Hradio). }
  rewrite broadcastChunk_run. fields. repeat split.
  - apply Forall_forall. intros sink Hin.
    destruct (live_registry_live w sink Hlive Hin) as (s & Hs & Hok).
    exists s. repeat split; try done.
    rewrite call_each_once, Hs by (done || by apply live_registry_NoDup).
    pose proof (write_all_live [chunk] s Hok) as Hw. cbn in Hw.
    unfold write_fails in Hok. apply orb_false_elim in Hok as [He Hd].
    cbn. by rewrite Hw, He, Hd.
  - intros other Hout. by apply call_each_notin.
Qed.

(** X15.  After [stop(false)] on a playing radio nobody receives
    anything any more: chunks the Pacer still emits change nothing at
    all, the registry having been cleared. *)
Theorem late_chunks_after_hard_stop_are_dropped
    (env : Env) (w : World) (stream : loc) (chunks : list Buffer) :
  playing (player w) = true ->
  _currentSongStream (player w) = Some stream ->
  run env (Stop false :: map Data chunks) w = run env [Stop false] w.
Proof.
  intros Hon Hs.
  change (Stop false :: map Data chunks) with ([Stop false] ++ map Data chunks).
  rewrite run_app. apply run_data_nobody.
  cbn [run fold_left handle]. rewrite WebRadio_stop_playing by done.
  by destruct (Player_stop_false w stream Hs) as (_ & (_ & _ & Hreg & _) & _).
Qed.

(* ===================================================================== *)
(** ** Stopping between two tracks *)
(* ===================================================================== *)

Lemma Player_stop_false_idle w :
  _currentSongStream (player w) = None ->
  Player.stop false w
  = (Throw TypeError, on_player (set_playing false) (on_player (set_songs []) w)).
Proof.
  intros Hs. unfold Player.stop. unfold_monad. fields. by rewrite Hs.
Qed.

Lemma run_resume env i probe w :
  run env [Resume i probe] w
  = snd (call_async (Player.playNextSong_resume i probe) w).
Proof. reflexivity. Qed.

(** X16.  A hard stop that arrives while a [playNextSong] is waiting for
    the bitrate of the track it has just opened (between two tracks)
    tears the radio down, but the waiting call then resumes: it turns
    the [playing] flag back on and fails with a [TypeError] on the
    missing byte source.  The radio is left with the flag on and nothing
    playing: [stop(false)] now throws that [TypeError] instead of
    stopping, and [start()] is not refused. *)
Theorem hard_stop_while_bitrate_is_pending
    (env : Env) (w : World) (stream : loc) (i : nat) (p : string)
    (probe : ProbeOutcome) :
  playing (player w) = true ->
  _currentSongStream (player w) = Some stream ->
  suspended w !! i = Some p ->
  let w' := run env [Stop false; Resume i probe] w in
  playing (player w') = true
  /\ _currentSongStream (player w') = None
  /\ sinks (player w') = []
  /\ rejected w' = rejected w ++ [TypeError]
  /\ pipes w' = pipes w
  /\ readStreams w' = alter rs_destroy stream (readStreams w)
  /\ fst (WebRadio.stop false w') = Throw TypeError
  /\ WebRadio.start env w' = Player.start env w'.
Proof.
  intros Hon Hs Hp w'.
  set (w1 := run env [Stop false] w).
  assert (Hw1 : w1 = snd (Player.stop false w))
    by (unfold w1; cbn [run fold_left handle]; by rewrite WebRadio_stop_playing).
  destruct (Player_stop_false w stream Hs)
    as (_ & (Hnull & Hrs & Hreg & _ & _ & Hpi & Hsu) & _).
  rewrite <- Hw1 in *.
  assert (Hp1 : suspended w1 !! i = Some p) by by rewrite Hsu.
  destruct (resume_run i probe w1 p Hp1) as (b & msgs & _ & Hres).
  assert (Hw' : w' = snd (call_async (Player.playNextSong_resume i probe) w1))
    by reflexivity.
  rewrite Hres, Hnull in Hw'. cbn [snd] in Hw'.
  assert (Hrj : rejected w1 = rejected w).
  { rewrite Hw1. unfold Player.stop, Player.end_all_sinks. unfold_monad. fields.
    rewrite Hs, for_of_sink_call. reflexivity. }
  assert (Hfields : playing (player w') = true
                    /\ _currentSongStream (player w') = None
                    /\ sinks (player w') = []
                    /\ rejected w' = rejected w ++ [TypeError]
                    /\ pipes w' = pipes w
                    /\ readStreams w' = alter rs_destroy stream (readStreams w)).
  { rewrite Hw'. fields. by rewrite Hnull, Hreg, Hrj, Hpi, Hrs. }
  destruct Hfields as (Hon' & Hnull' & Hreg' & Hrj' & Hpi' & Hrs').
  repeat split; try done.
  - rewrite WebRadio_stop_playing by done.
    by rewrite Player_stop_false_idle.
  - by apply WebRadio_start_idle.
Qed.

(** X17.  On a looping radio, a graceful stop that arrives while a
    [playNextSong] is waiting for the bitrate of the track it has just
    opened is undone: the waiting call turns the [playing] flag back on
    when it resumes, so at the end of that track the catalog is read
    again and a next track is opened.  No sink is ended and the
    registry is kept: the radio goes on playing. *)
Theorem graceful_stop_while_bitrate_is_pending_is_undone
    (env : Env) (w : World) (stream : loc) (p : string) (probe : ProbeOutcome)
    (chunks : list Buffer) (entries : list Dirent) :
  loop (_options (player w)) = true ->
  playing (player w) = true ->
  _currentSongStream (player w) = Some stream ->
  suspended w = [p] ->
  readdirSync env (audioDirectory (_options (player w))) = Some entries ->
  mp3_names entries <> [] ->
  let final :=
    run env ([Stop true; Resume 0 probe] ++ map Data chunks ++ [End]) w in
  exists song rest,
    song :: rest ≡ₚ mp3_names entries
    /\ playing (player final) = true
    /\ _currentSongStream (player final) = Some (length (readStreams w))
    /\ currentSong (player final) = Some song
    /\ songs (player final) = rest
    /\ sinks (player final) = sinks (player w)
    /\ passThroughs final
       = broadcast_all chunks (Map_values (sinks (player w))) (passThroughs w).
Proof.
  intros Hloop Hon Hs Hsu Hdir Hne final. subst final.
  change [Stop true; Resume 0 probe] with ([Stop true] ++ [Resume 0 probe]).
  rewrite !run_app, run_stop_true by done.
  set (w1 := on_console _ _).
  assert (Hp1 : suspended w1 !! 0%nat = Some p) by (subst w1; fields; by rewrite Hsu).
  destruct (resume_run 0 probe w1 p Hp1) as (b & msgs & _ & Hres).
  rewrite run_resume, Hres. cbn [snd].
  assert (Hs1 : _currentSongStream (player w1) = Some stream) by (by subst w1).
  rewrite Hs1.
  set (w2 := on_pipes _ _).
  rewrite run_data.
  set (w3 := on_passThroughs _ w2).
  assert (Hon3 : playing (player w3) = true) by reflexivity.
  assert (Hq3 : songs (player w3) = []) by reflexivity.
  assert (Hloop3 : loop (_options (player w3)) = true) by (by subst w3 w2 w1).
  assert (Hdir3 : readdirSync env (audioDirectory (_options (player w3)))
                  = Some entries) by (by subst w3 w2 w1).
  cbn [run fold_left handle]. rewrite on_end_playing by done.
  destruct (readSongs_readable env w3 entries Hdir3) as (l & w4 & Hread).
  destruct (readSongs_length env w3 entries l w4 Hdir3 Hread)
    as (Hlen & Hperm & Hp4 & Hh4 & Hrs4 & _).
  unfold call_async, try_catch.
  rewrite (playNextSong_refill env w3 l w4) by done.
  destruct l as [|song rest].
  { destruct (mp3_names entries); [done | by cbn in Hlen]. }
  exists song, rest. cbn [snd]. unfold opened. fields.
  rewrite Hp4, Hh4, Hrs4. subst w3 w2 w1. fields. done.
Qed.

(* ===================================================================== *)
(** ** Playing the queue to its end *)
(* ===================================================================== *)

Lemma broadcast_all_app cs1 cs2 ls h :
  broadcast_all cs2 ls (broadcast_all cs1 ls h) = broadcast_all (cs1 ++ cs2) ls h.
Proof. unfold broadcast_all. by rewrite fold_left_app. Qed.

Lemma map_path_alter_destroy (l : nat) (h : list ReadStream) :
  map path (alter rs_destroy l h) = map path h.
Proof.
  revert l. induction h as [|x h IH]; intros [|l]; try reflexivity.
  cbn. f_equal. apply IH.
Qed.

Lemma play_queue_run env tracks :
  forall w p stream,
    loop (_options (player w)) = false ->
    suspended w = [p] ->
    _currentSongStream (player w) = Some stream ->
    length tracks = S (length (songs (player w))) ->
    let final := run env (playlist_events tracks) w in
    let registered := Map_values (sinks (player w)) in
    passThroughs final
    = call_each end_ registered
        (broadcast_all (concat (map snd tracks)) registered (passThroughs w))
    /\ sinks (player final) = []
    /\ _currentSongStream (player final) = None
    /\ playing (player final) = false
    /\ songs (player final) = []
    /\ suspended final = []
    /\ map path (readStreams final)
       = map path (readStreams w)
         ++ map (path_join (audioDirectory (_options (player w)))) (songs (player w))
    /\ length (pipes final) = (length (pipes w) + length tracks)%nat
    /\ rejected final = rejected w.
Proof.
  induction tracks as [|[probe cs] tracks IH]; intros w p stream Hloop Hsu Hs Hlen;
    [done|].
  cbn zeta. unfold playlist_events. cbn [map concat].
  fold (playlist_events tracks). rewrite run_app.
  unfold track_events. cbn [fst snd].
  change (Resume 0 probe :: map Data cs ++ [End])
    with ([Resume 0 probe] ++ map Data cs ++ [End]).
  rewrite !run_app.
  assert (Hp : suspended w !! 0%nat = Some p) by by rewrite Hsu.
  destruct (resume_run 0 probe w p Hp) as (b & msgs & _ & Hres).
  rewrite run_resume, Hres, Hs. cbn [snd].
  set (w1 := on_pipes _ _). rewrite run_data.
  set (w2 := on_passThroughs _ w1).
  assert (Hon2 : playing (player w2) = true) by reflexivity.
  assert (Hsu2 : suspended w2 = []) by (subst w2 w1; fields; by rewrite Hsu).
  cbn [run fold_left handle]. fold (run env (playlist_events tracks)).
  rewrite on_end_playing by done. unfold call_async, try_catch.
  destruct (songs (player w)) as [|song rest] eqn:Hq.
  - destruct tracks; [|done]. cbn [playlist_events map concat run fold_left].
    rewrite (playNextSong_exhausted env w2 stream) by (by subst w2 w1).
    cbn [snd]. subst w2 w1. fields. rewrite Hsu, app_nil_r, app_nil_r.
    rewrite map_path_alter_destroy, length_app. cbn. done.
  - rewrite (playNextSong_next env w2 song rest) by (by subst w2 w1).
    cbn [snd]. set (w3 := opened _ _ _ _).
    assert (Hlen3 : length tracks = S (length (songs (player w3))))
      by (subst w3; unfold opened; fields; cbn in Hlen; lia).
    assert (Hsu3 : suspended w3
                   = [path_join (audioDirectory (_options (player w2))) song])
      by (subst w3; unfold opened; fields; by rewrite Hsu2).
    specialize (IH w3 _ (length (readStreams w2)) Hloop Hsu3 eq_refl Hlen3).
    cbn zeta in IH.
    destruct IH as (Hh & Hreg & Hnull & Hoff & Hq' & Hsus & Hpaths & Hpipes & Hrj).
    rewrite Hh, Hreg, Hnull, Hoff, Hq', Hsus, Hpaths, Hpipes, Hrj.
    subst w3 w2 w1. unfold opened. fields.
    rewrite broadcast_all_app, map_app, !length_app, <- app_assoc. cbn.
    repeat split; try done. lia.
Qed.

(** X18.  With [loop] off, a radio that has been started plays its
    whole queue and then stops by itself.  From the state [start()]
    leaves (first track opened, its bitrate pending), when the
    environment serves every track in turn (bitrate settled, chunks
    paced, end signalled):
    - every sink registered throughout has received every chunk of
      every track, in order, and has then been ended;
    - each queued track has been opened once, in queue order, at its
      path under the audio directory, and paced through one pipe;
    - at the end the registry is empty, there is no byte source, the
      flag is off and nothing is pending or has failed. *)
Theorem queue_plays_to_its_end_then_radio_stops
    (env : Env) (w : World) (p : string) (stream : loc)
    (tracks : list (ProbeOutcome * list Buffer)) :
  loop (_options (player w)) = false ->
  suspended w = [p] ->
  _currentSongStream (player w) = Some stream ->
  length tracks = S (length (songs (player w))) ->
  live_registry w = true ->
  let final := run env (playlist_events tracks) w in
  Forall (fun sink =>
            passThroughs final !! sink
            = (fun s => mkPassThrough
                          (received s ++ concat (map snd tracks)) true false)
                <$> passThroughs w !! sink)
         (Map_values (sinks (player w)))
  /\ sinks (player final) = []
  /\ _currentSongStream (player final) = None
  /\ playing (player final) = false
  /\ songs (player final) = []
  /\ suspended final = []
  /\ map path (readStreams final)
     = map path (readStreams w)
       ++ map (path_join (audioDirectory (_options (player w)))) (songs (player w))
  /\ length (pipes final) = (length (pipes w) + length tracks)%nat
  /\ rejected final = rejected w.
Proof.
  intros Hloop Hsu Hs Hlen Hlive final.
  destruct (play_queue_run env tracks w p stream Hloop Hsu Hs Hlen)
    as (Hh & Hrest).
  split; [|exact Hrest].
  apply Forall_forall. intros sink Hin. fold final in Hh. rewrite Hh.
  rewrite call_each_idem by (done || by intros []).
  rewrite broadcast_all_once by (by apply live_registry_NoDup || done).
  destruct (live_registry_live w sink Hlive Hin) as (s & -> & Hok).
  cbn. rewrite write_all_live by done. cbn.
  unfold write_fails in Hok. by destruct (ended s), (destroyed s).
Qed.

(* ===================================================================== *)
(** ** More on listeners and on resuming *)
(* ===================================================================== *)

(** X20.  While the radio is offline (flag off and no byte source: not
    started yet, or stopped), the middleware of [connect()] answers 503
    and registers nothing: apart from the logged message the world is as
    it was. *)
Theorem offline_connect_is_refused (id : string) (w : World) :
  playing (player w) = false ->
  _currentSongStream (player w) = None ->
  fst (WebRadio.connect id w) = Normal WebRadio.ServiceUnavailable
  /\ player (snd (WebRadio.connect id w)) = player w
  /\ passThroughs (snd (WebRadio.connect id w)) = passThroughs w
  /\ console (snd (WebRadio.connect id w)) = console w ++ [LogOffline].
Proof.
  intros Hoff Hs. rewrite connect_offline by done. by destruct w.
Qed.

(** X21.  A listener's disconnection does not disturb the others: after
    [removeResponseSink(id)] every other identifier still names its
    sink, and that sink is exactly as it was. *)
Theorem removing_a_listener_leaves_the_others
    (id other : string) (sink : loc) (w : World) :
  live_registry w = true ->
  other <> id ->
  Map_get other (sinks (player w)) = Some sink ->
  let w' := snd (Player.removeResponseSink id w) in
  Map_get other (sinks (player w')) = Some sink
  /\ passThroughs w' !! sink = passThroughs w !! sink.
Proof.
  intros Hlive Hne Hget w'. subst w'.
  rewrite removeResponseSink_sinks, removeResponseSink_heap.
  split; [by rewrite Map_get_delete_ne|].
  destruct (Map_get id (sinks (player w))) as [gone|] eqn:Hid; [|done].
  apply list_lookup_alter_ne. intros ->. apply Hne.
  eapply Map_get_key_unique; [by apply live_registry_NoDup | done..].
Qed.

(** X23.  When the bitrate of the track being opened is resolved, the
    suspended [playNextSong] turns the [playing] flag on and pipes the
    current byte source through a Pacer at the bitrate [getBitRate]
    returned; from then on [stop()] is accepted.  The registry, the
    sinks and the queue are untouched. *)
Theorem resume_starts_pacing
    (i : nat) (probe : ProbeOutcome) (w : World) (p : string) (stream : loc) :
  suspended w !! i = Some p ->
  _currentSongStream (player w) = Some stream ->
  let w' := snd (call_async (Player.playNextSong_resume i probe) w) in
  exists bitRate,
    fst (Player.getBitRate p probe w) = Normal bitRate
    /\ pipes w' = pipes w ++ [(stream, bitRate)]
    /\ playing (player w') = true
    /\ suspended w' = delete i (suspended w)
    /\ _currentSongStream (player w') = Some stream
    /\ sinks (player w') = sinks (player w)
    /\ passThroughs w' = passThroughs w
    /\ songs (player w') = songs (player w)
    /\ rejected w' = rejected w
    /\ (forall graceful,
          WebRadio.stop graceful w' = Player.stop graceful w').
Proof.
  intros Hp Hs w'. subst w'.
  destruct (resume_run i probe w p Hp) as (b & msgs & Hb & Hres).
  rewrite Hres, Hs. cbn [snd]. exists b. fields.
  split.
  { rewrite getBitRate_run in *. fields.
    destruct (truthy _); [by injection Hb as <- _|].
    destruct (probed_bit_rate probe); by injection Hb as <- _. }
  repeat split; try done.
Qed.

(* ===================================================================== *)
(** ** Only tracks of the catalog are opened *)
(* ===================================================================== *)

(** Worlds that agree on the options, the queue and the paths opened. *)
Lemma from_catalog_same env w w' :
  _options (player w') = _options (player w) ->
  songs (player w') = songs (player w) \/ songs (player w') = [] ->
  map path (readStreams w') = map path (readStreams w) ->
  from_catalog env w -> from_catalog env w'.
Proof.
  intros Ho Hq Hrs (entries & Hdir & Hsongs & Hpaths).
  exists entries. rewrite Ho, Hrs. repeat split; try done.
  destruct Hq as [-> | ->]; [done | constructor].
Qed.

Lemma from_catalog_opened env w song rest :
  songs (player w) = song :: rest ->
  from_catalog env w ->
  from_catalog env (opened (audioDirectory (_options (player w))) song rest w).
Proof.
  intros Hq (entries & Hdir & Hsongs & Hpaths).
  rewrite Hq in Hsongs. apply Forall_cons in Hsongs as [Hsong Hrest].
  exists entries. unfold opened. fields. repeat split; try done.
  rewrite map_app. apply Forall_app. split; [done|].
  apply Forall_singleton. by exists song.
Qed.

Lemma from_catalog_readSongs env w l w1 :
  Player.readSongs env w = (Normal l, w1) ->
  from_catalog env w ->
  from_catalog env (on_player (set_songs l) w1)
  /\ _options (player w1) = _options (player w).
Proof.
  intros Hread (entries & Hdir & Hsongs & Hpaths).
  destruct (readSongs_length env w entries l w1 Hdir Hread)
    as (_ & Hperm & Hp & _ & Hrs & _).
  split; [|by rewrite Hp].
  exists entries. fields. rewrite Hp, Hrs. repeat split; try done.
  apply Forall_forall. intros song Hin. by rewrite <- Hperm.
Qed.

Lemma playNextSong_from_catalog env w :
  from_catalog env w -> from_catalog env (snd (Player.playNextSong env w)).
Proof.
  intros Hcat. destruct (songs (player w)) as [|song rest] eqn:Hq.
  - destruct (loop (_options (player w))) eqn:Hloop.
    + destruct Hcat as (entries & Hdir & Hsongs & Hpaths).
      destruct (readSongs_readable env w entries Hdir) as (l & w1 & Hread).
      assert (Hcat : from_catalog env w) by (exists entries; done).
      destruct (from_catalog_readSongs env w l w1 Hread Hcat) as [Hcat1 Ho].
      rewrite (playNextSong_refill env w l w1) by done.
      destruct l as [|song rest]; cbn [snd].
      * eapply from_catalog_same; [..|exact Hcat1]; fields; auto.
      * rewrite <- Ho.
        by apply (from_catalog_opened env (on_player (set_songs (song :: rest)) w1)).
    + destruct (_currentSongStream (player w)) as [stream|] eqn:Hs.
      * rewrite (playNextSong_exhausted env w stream) by done. cbn [snd].
        eapply from_catalog_same; [..|exact Hcat]; fields; auto.
        apply map_path_alter_destroy.
      * rewrite playNextSong_exhausted_idle by done. cbn [snd].
        eapply from_catalog_same; [..|exact Hcat]; fields; auto.
  - rewrite (playNextSong_next env w song rest) by done.
    by apply from_catalog_opened.
Qed.

Lemma call_async_from_catalog env m w :
  from_catalog env (snd (m w)) -> from_catalog env (snd (call_async m w)).
Proof.
  intros Hcat. unfold call_async, try_catch, modify.
  destruct (m w) as [[a|e] w1]; [done|]. cbn [snd] in *.
  eapply from_catalog_same; [..|exact Hcat]; fields; auto.
Qed.

Lemma teardown_from_catalog env (w0 w : World) :
  _options (player w) = _options (player w0) ->
  songs (player w) = songs (player w0) \/ songs (player w) = [] ->
  map path (readStreams w) = map path (readStreams w0) ->
  from_catalog env w0 ->
  from_catalog env
    (snd ((currentSongStream_destroy;;
           modify (on_player (set_currentSongStream None));;
           Player.end_all_sinks;;
           logFn LogStopped) w)).
Proof.
  intros Ho Hq Hrs Hcat. unfold Player.end_all_sinks. unfold_monad. fields.
  destruct (_currentSongStream (player w)) as [stream|].
  - rewrite for_of_sink_call. cbn [snd].
    eapply from_catalog_same; [..|exact Hcat]; fields; auto.
    by rewrite map_path_alter_destroy.
  - cbn [snd]. by eapply from_catalog_same; [..|exact Hcat].
Qed.

Lemma handle_from_catalog env e w :
  from_catalog env w -> from_catalog env (snd (handle env e w)).
Proof.
  intros Hcat. destruct e as [|g|id|id|i probe|chunk|]; cbn [handle].
  - (* start() *)
    unfold WebRadio.start. unfold_monad.
    destruct (truthy WebRadio.this_playing || bool_decide _); [done|].
    unfold Player.start. unfold mbind at 1, M_bind at 1.
    destruct (Player.readSongs env w) as [[l|err] w1] eqn:Hread.
    + destruct (from_catalog_readSongs env w l w1 Hread Hcat) as [Hcat1 _].
      unfold mbind, M_bind, modify.
      by apply call_async_from_catalog, playNextSong_from_catalog.
    + destruct Hcat as (entries & Hdir & _).
      destruct (readSongs_readable env w entries Hdir) as (l & w1' & Hread').
      congruence.
  - (* stop(graceful) *)
    unfold WebRadio.stop. unfold_monad.
    destruct (playing (player w)); cbn [negb]; [|done].
    unfold Player.stop. destruct g; cbn [negb].
    + unfold_monad. cbn [snd].
      eapply from_catalog_same; [..|exact Hcat]; fields; auto.
    + unfold mbind at 1, M_bind at 1, modify at 1.
      unfold mbind at 1, M_bind at 1, modify at 1.
      apply (teardown_from_catalog env w); fields; auto.
  - (* connect() *)
    unfold mbind, M_bind, mret, M_ret.
    assert (Hc : from_catalog env (snd (WebRadio.connect id w))).
    { destruct (playing (player w)) eqn:Hp;
        [|destruct (_currentSongStream (player w)) eqn:Hs].
      - rewrite connect_online by (by left).
        eapply from_catalog_same; [..|exact Hcat]; fields; auto.
      - rewrite connect_online by (right; by rewrite Hs).
        eapply from_catalog_same; [..|exact Hcat]; fields; auto.
      - rewrite connect_offline by done.
        eapply from_catalog_same; [..|exact Hcat]; fields; auto. }
    by destruct (WebRadio.connect id w) as [[r|err] w1].
  - (* the response closes *)
    unfold WebRadio.on_close. rewrite removeResponseSink_run. cbn [snd].
    eapply from_catalog_same; [..|exact Hcat];
      destruct (Map_get id (sinks (player w))); fields; auto.
  - (* the bitrate is resolved *)
    destruct (suspended w !! i) as [p|] eqn:Hp.
    + destruct (resume_run i probe w p Hp) as (b & msgs & _ & ->). cbn [snd].
      eapply from_catalog_same; [..|exact Hcat];
        destruct (_currentSongStream (player w)); fields; auto.
    + unfold call_async, try_catch, Player.playNextSong_resume. unfold_monad.
      by rewrite Hp.
  - (* a chunk *)
    unfold Player.on_data. rewrite broadcastChunk_run. cbn [snd].
    eapply from_catalog_same; [..|exact Hcat]; fields; auto.
  - (* the end of the track *)
    destruct (playing (player w)) eqn:Hp.
    + rewrite on_end_playing by done.
      by apply call_async_from_catalog, playNextSong_from_catalog.
    + unfold Player.on_end. unfold mbind at 1, M_bind at 1, gets at 1.
      rewrite Hp. cbn [negb].
      apply (teardown_from_catalog env w); auto.
Qed.

(** X22.  A radio only ever opens tracks of its catalog: in every world
    reached from [new WebRadio(options)] through calls of its interface
    and callbacks, each byte source that has been opened is the file,
    under the audio directory, of a name with extension [.mp3] in the
    directory's listing, and so is each song waiting in the queue. *)
Theorem only_catalog_tracks_are_opened
    (env : Env) (o : WebRadio.RawOptions) (w : World) (es : list event) :
  WebRadio.constructor env o = Normal w ->
  from_catalog env (run env es w).
Proof.
  intros Hw.
  assert (Hcat : from_catalog env w).
  { destruct (WebRadio.validate env (WebRadio.defaults o)) as [opts|e] eqn:Hv;
      [|by unfold WebRadio.constructor in Hw; rewrite Hv in Hw].
    pose proof (constructor_run env o opts Hv) as Hrun.
    destruct (readdirSync env (audioDirectory opts)) as [entries|] eqn:Hdir;
      [|congruence].
    destruct (length (mp3_names entries) =? 0)%nat; [congruence|].
    destruct Hrun as (w' & Hw' & Hp & _ & Hrs & _).
    assert (w' = w) as -> by congruence.
    exists entries. rewrite Hp, Hrs. repeat split; [done | constructor..]. }
  clear Hw. revert w Hcat. induction es as [|e es IH]; intros w Hcat; [done|].
  apply IH. by apply handle_from_catalog.
Qed.

(* ===================================================================== *)
(** ** The further properties on the scenario *)
(* ===================================================================== *)

Lemma constructed_radio_is_idle_witness :
  _currentSongStream (player demo_radio) = None
  /\ sinks (player demo_radio) = [] /\ songs (player demo_radio) = []
  /\ currentSong (player demo_radio) = None /\ playing (player demo_radio) = false.
Proof.
  destruct (constructed_radio_is_idle demo_env demo_options demo_radio)
    as (H1 & H2 & H3 & H4 & H5 & _).
  - vm_compute. reflexivity.
  - repeat split; assumption.
Defined.

Lemma constructor_catalog_errors_witness :
  WebRadio.constructor empty_env demo_options = Throw NoMp3Files
  /\ WebRadio.constructor unreadable_env demo_options = Throw ReaddirError.
Proof.
  split.
  - apply (constructor_catalog_errors empty_env demo_options
             (mkOptions "./audio" VUndefined false false)).
    vm_compute. reflexivity.
  - apply (constructor_catalog_errors unreadable_env demo_options
             (mkOptions "./audio" VUndefined false false)).
    vm_compute. reflexivity.
Defined.

Lemma readSongs_lists_each_track_once_witness :
  exists l w',
    Player.readSongs demo_env demo_radio = (Normal l, w')
    /\ l ≡ₚ mp3_names demo_entries
    /\ NoDup l
    /\ (shuffle (_options (player demo_radio)) = false ->
        l = mp3_names demo_entries /\ w' = demo_radio).
Proof.
  apply (readSongs_lists_each_track_once demo_env demo_radio demo_entries).
  - vm_compute. reflexivity.
  - apply (bool_decide_unpack _). vm_compute. exact I.
Defined.

Lemma configured_bitrate_is_returned_witness :
  Player.getBitRate "./audio/a.mp3" Rejected (configured (VNum (Int 192000)) demo_radio)
  = (Normal (Int 192000), configured (VNum (Int 192000)) demo_radio).
Proof.
  apply (configured_bitrate_is_returned "./audio/a.mp3" Rejected
           (configured (VNum (Int 192000)) demo_radio) 192000).
  - vm_compute. reflexivity.
  - lia.
Defined.

Lemma probed_bit_rate_is_returned_witness :
  Player.getBitRate "./audio/a.mp3"
    (Resolved (VObj [("streams", VArr [VObj [("bit_rate", VStr "320000")]])]))
    demo_radio
  = (Normal (Int 320000), demo_radio).
Proof.
  apply (probed_bit_rate_is_returned "./audio/a.mp3" demo_radio 320000
           [("streams", VArr [VObj [("bit_rate", VStr "320000")]])]
           [("bit_rate", VStr "320000")] []).
  - vm_compute. reflexivity.
  - vm_compute. reflexivity.
  - vm_compute. reflexivity.
  - lia.
Defined.

Lemma start_opens_first_track_witness :
  exists song rest,
    fst (WebRadio.start demo_env demo_radio) = Normal tt
    /\ song :: rest ≡ₚ mp3_names demo_entries
    /\ (shuffle (_options (player demo_radio)) = false ->
        song :: rest = mp3_names demo_entries)
    /\ opens_track demo_radio (snd (WebRadio.start demo_env demo_radio)) song rest.
Proof.
  apply (start_opens_first_track demo_env demo_radio demo_entries).
  - vm_compute. reflexivity.
  - vm_compute. reflexivity.
  - vm_compute. discriminate.
Defined.

Lemma start_with_unreadable_directory_witness :
  WebRadio.start unreadable_env demo_radio = (Throw ReaddirError, demo_radio).
Proof.
  apply (start_with_unreadable_directory unreadable_env demo_radio).
  - vm_compute. reflexivity.
  - vm_compute. reflexivity.
Defined.

Lemma start_with_empty_catalog_witness :
  fst (WebRadio.start empty_env demo_radio) = Normal tt
  /\ rejected (snd (WebRadio.start empty_env demo_radio))
     = rejected demo_radio ++ [TypeError]
  /\ _currentSongStream (player (snd (WebRadio.start empty_env demo_radio))) = None.
Proof.
  destruct (start_with_empty_catalog empty_env demo_radio
              [mkDirent "notes.txt" RegularFile]) as (H1 & H2 & H3 & _).
  - vm_compute. reflexivity.
  - vm_compute. reflexivity.
  - vm_compute. reflexivity.
  - repeat split; assumption.
Defined.

Lemma track_end_advances_to_next_witness :
  fst (Player.on_end demo_env demo_playing) = Normal tt
  /\ opens_track demo_playing (snd (Player.on_end demo_env demo_playing)) "b.mp3" [].
Proof.
  apply (track_end_advances_to_next demo_env demo_playing "b.mp3" []).
  - vm_compute. reflexivity.
  - vm_compute. reflexivity.
Defined.

Lemma loop_refills_the_queue_witness :
  exists song rest,
    fst (Player.on_end demo_env demo_loop_last) = Normal tt
    /\ song :: rest ≡ₚ mp3_names demo_entries
    /\ (shuffle (_options (player demo_loop_last)) = false ->
        song :: rest = mp3_names demo_entries)
    /\ opens_track demo_loop_last (snd (Player.on_end demo_env demo_loop_last))
         song rest.
Proof.
  apply (loop_refills_the_queue demo_env demo_loop_last demo_entries).
  - vm_compute. reflexivity.
  - vm_compute. reflexivity.
  - vm_compute. reflexivity.
  - vm_compute. reflexivity.
  - vm_compute. discriminate.
Defined.

Lemma connect_registers_an_empty_sink_witness :
  fst (WebRadio.connect "bb" demo_playing)
  = Normal (WebRadio.Streaming "bb" (length (passThroughs demo_playing)))
  /\ passThroughs (snd (WebRadio.connect "bb" demo_playing))
     = passThroughs demo_playing ++ [new_PassThrough].
Proof.
  destruct (connect_registers_an_empty_sink "bb" demo_playing) as (H1 & _ & H3 & _).
  - left. vm_compute. reflexivity.
  - split; assumption.
Defined.

Lemma listener_hears_only_its_window_witness :
  let during :=
    [Data chunk2; Connect "cc"; End; Resume 0 probe_320k; Data chunk3;
     Close "cc"; Stop true; Data chunk1] in
  let responseSink := length (passThroughs demo_playing) in
  let connected := run demo_env [Connect "bb"] demo_playing in
  passThroughs (run demo_env during connected) !! responseSink
  = Some (mkPassThrough (chunks_of during) false false)
  /\ forall (out : event) (after : list event),
       Map_get "bb" (sinks (player (run demo_env (during ++ [out]) connected)))
       <> Some responseSink ->
       let final := run demo_env (during ++ out :: after) connected in
       (received <$> passThroughs final !! responseSink) = Some (chunks_of during)
       /\ (responseSink ∉ Map_values (sinks (player final)))
       /\ (out = Close "bb" ->
           passThroughs final !! responseSink
           = Some (mkPassThrough (chunks_of during) false true)).
Proof.
  apply (listener_hears_only_its_window demo_env "bb" demo_playing
           [Data chunk2; Connect "cc"; End; Resume 0 probe_320k; Data chunk3;
            Close "cc"; Stop true; Data chunk1]).
  - left. vm_compute. reflexivity.
  - vm_compute. reflexivity.
  - vm_compute. reflexivity.
Defined.

Example listener_window_demo :
  let during :=
    [Data chunk2; Connect "cc"; End; Resume 0 probe_320k; Data chunk3;
     Close "cc"; Stop true; Data chunk1] in
  let joined := run demo_env [Connect "bb"] demo_playing in
  passThroughs (run demo_env during joined) !! 1%nat
  = Some (mkPassThrough [chunk2; chunk3; chunk1] false false)
  /\ passThroughs (run demo_env (during ++ [Close "bb"; Data chunk2; End]) joined)
     !! 1%nat
     = Some (mkPassThrough [chunk2; chunk3; chunk1] false true).
Proof. vm_compute. repeat split. Qed.

(** A hard stop ends the window: the sink is ended and out of the
    registry, and what is broadcast after a restart does not reach it. *)
Example listener_window_ends_at_hard_stop :
  let joined := run demo_env [Connect "bb"] demo_playing in
  stays_connected demo_env "bb" 1%nat [Data chunk2] joined = true
  /\ stays_connected demo_env "bb" 1%nat [Data chunk2; Stop false] joined = false
  /\ passThroughs
       (run demo_env [Data chunk2; Stop false; Start; Resume 0 Rejected; Data chunk3]
          joined) !! 1%nat
     = Some (mkPassThrough [chunk2] true false).
Proof. vm_compute. repeat split. Qed.

Lemma broadcast_reaches_every_listener_witness :
  let w := run demo_env
             [Start; Connect "aa"; Resume 0 Rejected; Data chunk1; Connect "bb"]
             demo_radio in
  let w' := snd (Player.broadcastChunk chunk2 w) in
  fst (Player.broadcastChunk chunk2 w) = Normal tt
  /\ player w' = player w
  /\ Forall (fun sink =>
               exists s,
                 passThroughs w !! sink = Some s
                 /\ write_fails s = false
                 /\ passThroughs w' !! sink
                    = Some (mkPassThrough (received s ++ [chunk2]) false false))
            (Map_values (sinks (player w)))
  /\ forall other,
       other ∉ Map_values (sinks (player w)) ->
       passThroughs w' !! other = passThroughs w !! other.
Proof.
  apply (broadcast_reaches_every_listener demo_env demo_options demo_radio
           [Start; Connect "aa"; Resume 0 Rejected; Data chunk1; Connect "bb"]
           chunk2).
  vm_compute. reflexivity.
Defined.

Lemma late_chunks_after_hard_stop_are_dropped_witness :
  run demo_env (Stop false :: map Data [chunk2; chunk3]) demo_playing
  = run demo_env [Stop false] demo_playing.
Proof.
  apply (late_chunks_after_hard_stop_are_dropped demo_env demo_playing 0%nat).
  - vm_compute. reflexivity.
  - vm_compute. reflexivity.
Defined.

Lemma hard_stop_while_bitrate_is_pending_witness :
  let w' := run demo_env [Stop false; Resume 0 Rejected] demo_between in
  playing (player w') = true
  /\ _currentSongStream (player w') = None
  /\ fst (WebRadio.stop false w') = Throw TypeError.
Proof.
  destruct (hard_stop_while_bitrate_is_pending demo_env demo_between 1%nat 0%nat
              "./audio/b.mp3" Rejected) as (H1 & H2 & _ & _ & _ & _ & H7 & _).
  - vm_compute. reflexivity.
  - vm_compute. reflexivity.
  - vm_compute. reflexivity.
  - repeat split; assumption.
Defined.

Lemma graceful_stop_while_bitrate_is_pending_is_undone_witness :
  let final :=
    run demo_env ([Stop true; Resume 0 Rejected] ++ map Data [chunk2] ++ [End])
      demo_loop_between in
  exists song rest,
    song :: rest ≡ₚ mp3_names demo_entries
    /\ playing (player final) = true
    /\ _currentSongStream (player final)
       = Some (length (readStreams demo_loop_between))
    /\ currentSong (player final) = Some song
    /\ songs (player final) = rest
    /\ sinks (player final) = sinks (player demo_loop_between)
    /\ passThroughs final
       = broadcast_all [chunk2] (Map_values (sinks (player demo_loop_between)))
           (passThroughs demo_loop_between).
Proof.
  apply (graceful_stop_while_bitrate_is_pending_is_undone demo_env
           demo_loop_between 1%nat "./audio/b.mp3" Rejected [chunk2] demo_entries).
  - vm_compute. reflexivity.
  - vm_compute. reflexivity.
  - vm_compute. reflexivity.
  - vm_compute. reflexivity.
  - vm_compute. reflexivity.
  - vm_compute. discriminate.
Defined.

Lemma queue_plays_to_its_end_then_radio_stops_witness :
  let final := run demo_env (playlist_events demo_tracks) demo_started in
  Forall (fun sink =>
            passThroughs final !! sink
            = (fun s => mkPassThrough
                          (received s ++ concat (map snd demo_tracks)) true false)
                <$> passThroughs demo_started !! sink)
         (Map_values (sinks (player demo_started)))
  /\ sinks (player final) = []
  /\ _currentSongStream (player final) = None.
Proof.
  destruct (queue_plays_to_its_end_then_radio_stops demo_env demo_started
              "./audio/a.mp3" 0%nat demo_tracks) as (H1 & H2 & H3 & _).
  - vm_compute. reflexivity.
  - vm_compute. reflexivity.
  - vm_compute. reflexivity.
  - vm_compute. reflexivity.
  - vm_compute. reflexivity.
  - repeat split; assumption.
Defined.

Example queue_demo :
  let final := run demo_env (playlist_events demo_tracks) demo_started in
  passThroughs final = [mkPassThrough [chunk1; chunk2; chunk3] true false]
  /\ readStreams final = [mkReadStream "./audio/a.mp3" false;
                          mkReadStream "./audio/b.mp3" true]
  /\ pipes final = [(0%nat, Int 128000); (1%nat, Int 320000)].
Proof. vm_compute. repeat split. Qed.

Lemma reachable_registry_live_witness :
  live_registry
    (run demo_env [Start; Connect "aa"; Resume 0 Rejected; Data chunk1;
                   Connect "bb"; Close "aa"; End] demo_radio) = true.
Proof.
  apply (reachable_registry_live demo_env demo_options).
  vm_compute. reflexivity.
Defined.

Lemma offline_connect_is_refused_witness :
  fst (WebRadio.connect "bb" demo_radio) = Normal WebRadio.ServiceUnavailable
  /\ player (snd (WebRadio.connect "bb" demo_radio)) = player demo_radio
  /\ passThroughs (snd (WebRadio.connect "bb" demo_radio)) = passThroughs demo_radio
  /\ console (snd (WebRadio.connect "bb" demo_radio))
     = console demo_radio ++ [LogOffline].
Proof.
  apply (offline_connect_is_refused "bb" demo_radio).
  - vm_compute. reflexivity.
  - vm_compute. reflexivity.
Defined.

Lemma removing_a_listener_leaves_the_others_witness :
  let w' := snd (Player.removeResponseSink "aa" demo_two_listeners) in
  Map_get "bb" (sinks (player w')) = Some 1%nat
  /\ passThroughs w' !! 1%nat = passThroughs demo_two_listeners !! 1%nat.
Proof.
  apply (removing_a_listener_leaves_the_others "aa" "bb" 1%nat demo_two_listeners).
  - vm_compute. reflexivity.
  - discriminate.
  - vm_compute. reflexivity.
Defined.

Lemma only_catalog_tracks_are_opened_witness :
  from_catalog demo_env
    (run demo_env [Start; Resume 0 Rejected; Data chunk1; End] demo_radio).
Proof.
  apply (only_catalog_tracks_are_opened demo_env demo_options).
  vm_compute. reflexivity.
Defined.

Lemma resume_starts_pacing_witness :
  let w' := snd (call_async (Player.playNextSong_resume 0 probe_320k) demo_started) in
  exists bitRate,
    fst (Player.getBitRate "./audio/a.mp3" probe_320k demo_started) = Normal bitRate
    /\ pipes w' = pipes demo_started ++ [(0%nat, bitRate)]
    /\ playing (player w') = true
    /\ suspended w' = delete 0%nat (suspended demo_started)
    /\ _currentSongStream (player w') = Some 0%nat
    /\ sinks (player w') = sinks (player demo_started)
    /\ passThroughs w' = passThroughs demo_started
    /\ songs (player w') = songs (player demo_started)
    /\ rejected w' = rejected demo_started
    /\ (forall graceful, WebRadio.stop graceful w' = Player.stop graceful w').
Proof.
  apply (resume_starts_pacing 0 probe_320k demo_started "./audio/a.mp3" 0%nat).
  - vm_compute. reflexivity.
  - vm_compute. reflexivity.
Defined.

Lemma bitrate_of_wrong_type_is_rejected_witness :
  WebRadio.constructor demo_env (with_raw_bitrate (VStr "128000") demo_options)
  = match WebRadio.raw_audioDirectory
            (WebRadio.defaults (with_raw_bitrate (VStr "128000") demo_options)) with
    | VStr dir => if existsSync demo_env dir then Throw BitrateNotNumber
                  else Throw DirectoryMissing
    | _ => Throw DirectoryNotString
    end.
Proof.
  apply (bitrate_of_wrong_type_is_rejected demo_env
           (with_raw_bitrate (VStr "128000") demo_options)).
  - vm_compute. reflexivity.
  - vm_compute. discriminate.
Defined.

